(** * ringbuffer: a shallow embedding of [ringbuffer.go]

    The Go package [ringbuffer] implements a ring buffer over a slice of
    [interface{}] values, with a head index and a size.  This file embeds
    the package function by function and proves its contract.

    Modelling conventions.
    - A Go [int] is a [Z] in the 64-bit two's complement range; every
      [+] and [-] of the source goes through [wrap], and [%] is the
      truncated remainder [Z.rem].
    - A slice created by [make] is a [list]; the slice expressions of the
      source check their bounds and panic as Go does.
    - A call returns an [outcome]: it completes with a value, panics, or
      does not return.
    - The reader/writer lock is not modelled: the operations are the
      sequential critical sections.
    - [make] refuses a length that is negative or above [max_alloc], as
      the runtime does; running out of memory below that bound is not
      modelled.  The states considered reachable are built with slices
      of at most [max_len] elements. *)

From Stdlib Require Import ZArith List Lia Bool.
Import ListNotations.
Local Open Scope Z_scope.

(** ** Go integers *)

Definition min_int : Z := -9223372036854775808.
Definition max_int : Z := 9223372036854775807.

(** An upper bound on the length of a slice of [interface{}]: an element
    takes 16 bytes, so a 64-bit address space holds fewer than 2^60. *)
Definition max_len : Z := 1152921504606846976.

(** The largest length [make] accepts for a slice of [interface{}]: the
    runtime panics when 16 times the length overflows or exceeds
    [maxAlloc], which is 2^48 bytes with 48-bit heap addresses; so the
    bound is 2^44. *)
Definition max_alloc : Z := 17592186044416.

Definition in_int (z : Z) : Prop := min_int <= z <= max_int.

(** Two's complement wrap-around of 64-bit arithmetic. *)
Definition wrap (z : Z) : Z :=
  (z + 9223372036854775808) mod 18446744073709551616 - 9223372036854775808.

(** ** Outcomes of a call *)

Inductive error : Type :=
| EmptyError  (* errors.New("empty ring buffer") *)
| FullError.  (* errors.New("full ring buffer") *)

Inductive panic : Type :=
| DivideByZero               (* integer divide by zero *)
| IndexOutOfRange            (* s[i] with i outside [0, len s) *)
| SliceBounds                (* s[lo:hi] with bounds out of range *)
| MakeLen                    (* makeslice: len out of range *)
| PanicError (e : error).    (* panic(e) *)

Inductive outcome (A : Type) : Type :=
| Done (a : A)
| Panic (p : panic)
| NoReturn.
Arguments Done {A} a.
Arguments Panic {A} p.
Arguments NoReturn {A}.

Definition bind {A B} (m : outcome A) (f : A -> outcome B) : outcome B :=
  match m with
  | Done a => f a
  | Panic p => Panic p
  | NoReturn => NoReturn
  end.

Notation "x <- m ;; k" := (bind m (fun x => k))
  (at level 61, m at next level, right associativity).

(** ** Slices *)

Definition len {A} (s : list A) : Z := Z.of_nat (length s).

Section Slices.
Context {A : Type}.

(** [s[lo:hi]] on a slice whose capacity is its length. *)
Definition slice (s : list A) (lo hi : Z) : outcome (list A) :=
  if (0 <=? lo) && (lo <=? hi) && (hi <=? len s)
  then Done (firstn (Z.to_nat (hi - lo)) (skipn (Z.to_nat lo) s))
  else Panic SliceBounds.

(** [s[lo:]] *)
Definition slice_from (s : list A) (lo : Z) : outcome (list A) :=
  slice s lo (len s).

(** [s[:hi]] *)
Definition slice_to (s : list A) (hi : Z) : outcome (list A) :=
  slice s 0 hi.

(** [copy(dst[off:], src)]: the slice [dst[off:]] shares the array of
    [dst], so the copy is a write into [dst]; the result is [dst] after
    the copy and the number of elements copied. *)
Definition copy_at (dst : list A) (off : Z) (src : list A)
  : outcome (list A * Z) :=
  tgt <- slice_from dst off ;;
  let n := Nat.min (length tgt) (length src) in
  Done (firstn (Z.to_nat off) dst ++ firstn n src ++ skipn n tgt,
        Z.of_nat n).

(** [s[i]] *)
Definition load (s : list A) (i : Z) (d : A) : outcome A :=
  if (0 <=? i) && (i <? len s)
  then Done (nth (Z.to_nat i) s d)
  else Panic IndexOutOfRange.

(** [s[i] = v] *)
Definition store (s : list A) (i : Z) (v : A) : outcome (list A) :=
  if (0 <=? i) && (i <? len s)
  then Done (firstn (Z.to_nat i) s ++ v :: skipn (S (Z.to_nat i)) s)
  else Panic IndexOutOfRange.

(** [make([]interface{}, n)] with zero value [d]: the runtime panics
    when the length is negative or more than it allocates. *)
Definition make (n : Z) (d : A) : outcome (list A) :=
  if (n <? 0) || (max_alloc <? n) then Panic MakeLen
  else Done (repeat d (Z.to_nat n)).

(** [dst] with [src] written over it from position [off]: what a copy
    with room for all of [src] leaves in [dst]. *)
Definition overwrite (dst : list A) (off : nat) (src : list A) : list A :=
  firstn off dst ++ src ++ skipn (off + length src) dst.
End Slices.

(** ** Index arithmetic *)

(** [Next] computes the next index for a ring buffer. *)
Definition Next (i latest capacity : Z) : outcome Z :=
  if capacity =? 0 then Panic DivideByZero
  else
    let n := Z.rem (wrap (latest + i)) capacity in
    let n := if n <? 0 then wrap (n + capacity) else n in
    Done n.

(** The loop [for pos < 0 { pos += capacity }]. *)
Fixpoint Index_loop (fuel : nat) (pos capacity : Z) : outcome Z :=
  if pos <? 0 then
    match fuel with
    | O => NoReturn
    | S fuel' => Index_loop fuel' (wrap (pos + capacity)) capacity
    end
  else Done pos.

(** [Index] computes the absolute position of a ring buffer index.  With
    a positive capacity the loop adds at least one per round, so it ends
    within [-pos] rounds.  With a negative capacity [pos] goes down
    until the addition wraps around to a positive value, within 2^63
    rounds.  The loop is given that many rounds; with capacity 0 and a
    negative [pos] it never ends, which is [NoReturn]. *)
Definition Index (i head size capacity : Z) : outcome Z :=
  if size =? 0 then Done (-1)
  else
    let i := Z.rem i size in
    let i := if i <? 0 then wrap (i + size) else i in
    let pos := wrap (head - i) in
    let rounds := if 0 <? capacity then - pos else 9223372036854775808 in
    Index_loop (Z.to_nat rounds) pos capacity.

(** ** The ring *)

Section Ring.
(** The element type [interface{}], its zero value [nil], and the
    conversion of an [int] to [interface{}]. *)
Context {V : Type} (nil : V) (box : Z -> V).

Record Ring : Type := mkRing {
  head : Z;
  size : Z;
  buf : list V
}.

(** [New] creates a new, empty ring buffer. *)
Definition New (capacity : Z) : outcome Ring :=
  b <- make capacity nil ;;
  Done {| buf := b; head := -1; size := 0 |}.

(** [Add] adds [val] at the ring's head, it also increases its size. *)
Definition Add (b : Ring) (val : V) : outcome (Ring * option error) :=
  if size b >=? len (buf b) then Done (b, Some FullError)
  else
    next <- Next 1 (head b) (len (buf b)) ;;
    buf' <- store (buf b) next val ;;
    Done ({| buf := buf'; head := next; size := wrap (size b + 1) |}, None).

(** One copy of [AddAll]: where it started and how many values it
    copied. *)
Definition span : Type := (Z * Z)%type.

(** The loop [for len(values) > 0 { ... }] of [AddAll], with the copies
    it made. *)
Fixpoint AddAll_loop (fuel : nat) (b : Ring) (values : list V)
  : outcome (Ring * list span) :=
  match values with
  | [] => Done (b, [])
  | _ :: _ =>
    match fuel with
    | O => NoReturn
    | S fuel' =>
      next <- Next 1 (head b) (len (buf b)) ;;
      c <- copy_at (buf b) next values ;;
      let '(buf', n) := c in
      if n =? 0 then Panic (PanicError FullError)
      else
        head' <- Next n (head b) (len (buf b)) ;;
        let b' := {| buf := buf'; head := head';
                     size := wrap (size b + n) |} in
        values' <- slice_from values n ;;
        r <- AddAll_loop fuel' b' values' ;;
        Done (fst r, (next, n) :: snd r)
    end
  end.

(** [AddAll] with the copies it made.  A round of the loop consumes at
    least one value or panics, so [length values] rounds are enough. *)
Definition AddAll_spans (b : Ring) (values : list V)
  : outcome (Ring * option error * list span) :=
  if wrap (size b + len values) >? len (buf b)
  then Done (b, Some FullError, [])
  else
    r <- AddAll_loop (length values) b values ;;
    Done (fst r, None, snd r).

(** [AddAll] adds all values to the ring's head. *)
Definition AddAll (b : Ring) (values : list V)
  : outcome (Ring * option error) :=
  r <- AddAll_spans b values ;;
  Done (fst r).

(** [Remove] removes [count] items at the ring's tail. *)
Definition Remove (b : Ring) (count : Z) : Ring :=
  if count <=? 0 then b
  else
    let size' := wrap (size b - count) in
    if size' <=? 0
    then {| buf := buf b; head := -1; size := 0 |}
    else {| buf := buf b; head := head b; size := size' |}.

(** [SetCapacity] tries to set the ring's capacity. *)
Definition SetCapacity (b : Ring) (capacity : Z) : outcome Ring :=
  let capacity := if capacity <? size b then size b else capacity in
  if capacity =? len (buf b) then Done b
  else
    nbuf <- make capacity nil ;;
    let head0 := head b in
    tail <- Index (-1) head0 (size b) (len (buf b)) ;;
    if tail <? head0 then
      src <- slice (buf b) tail (wrap (head0 + 1)) ;;
      c <- copy_at nbuf 0 src ;;
      Done {| buf := fst c; head := wrap (size b - 1); size := size b |}
    else
      src <- slice_from (buf b) tail ;;
      c <- copy_at nbuf 0 src ;;
      let '(nbuf1, n) := c in
      src2 <- slice_to (buf b) (wrap (head0 + 1)) ;;
      c2 <- copy_at nbuf1 n src2 ;;
      Done {| buf := fst c2; head := wrap (size b - 1); size := size b |}.

(** [Capacity] is the max size permitted. *)
Definition Capacity (b : Ring) : Z := len (buf b).

(** [Size] returns the ring's size. *)
Definition Size (b : Ring) : Z := size b.

(** [Push] puts [value] into the ring and discards the oldest one. *)
Definition Push (b : Ring) (value : V) : outcome Ring :=
  if (len (buf b) =? 0) || (size b =? 0) then Done b
  else
    next <- Next 1 (head b) (len (buf b)) ;;
    buf' <- store (buf b) next value ;;
    Done {| buf := buf'; head := next; size := size b |}.

(** [Get] returns the value in the ring, with the error. *)
Definition Get (b : Ring) (i : Z) : outcome (V * option error) :=
  if size b =? 0 then Done (box 0, Some EmptyError)
  else
    position <- Index i (head b) (size b) (len (buf b)) ;;
    v <- load (buf b) position nil ;;
    Done (v, None).

(** Looping over [Add]: the values one by one, stopping at the first
    error. *)
Fixpoint AddEach (b : Ring) (values : list V)
  : outcome (Ring * option error) :=
  match values with
  | [] => Done (b, None)
  | v :: values' =>
    r <- Add b v ;;
    match snd r with
    | Some e => Done (fst r, Some e)
    | None => AddEach (fst r) values'
    end
  end.

(** *** The comparison of the tests *)

(** The loop [for i := 0; i < b.Size(); i++ { ... }] of [equals], from
    [i] on.  [eqb] is [==] on [interface{}] values of comparable dynamic
    types.  A round adds one to [i], so [b.Size()] rounds are enough. *)
Fixpoint equals_loop (eqb : V -> V -> bool) (fuel : nat) (b c : Ring)
  (i : Z) : outcome bool :=
  if i <? Size b then
    match fuel with
    | O => NoReturn
    | S fuel' =>
      x <- Get b i ;;
      y <- Get c i ;;
      match snd x with
      | Some xerr => Panic (PanicError xerr)
      | None =>
        match snd y with
        | Some yerr => Panic (PanicError yerr)
        | None =>
          if negb (eqb (fst x) (fst y)) then Done false
          else equals_loop eqb fuel' b c (wrap (i + 1))
        end
      end
    end
  else Done true.

(** [equals] of the test file: same size and same value at every
    offset. *)
Definition equals (eqb : V -> V -> bool) (b c : Ring) : outcome bool :=
  if negb (Size b =? Size c) then Done false
  else equals_loop eqb (Z.to_nat (Size b)) b c 0.

(** *** States *)

(** The state invariant: the ring is empty with the head at the
    sentinel [-1], or it holds [size] values and the head is a slot of
    the buffer. *)
Definition valid (b : Ring) : Prop :=
  len (buf b) <= max_alloc /\
  ((size b = 0 /\ head b = -1) \/
   (0 < size b <= len (buf b) /\ 0 <= head b < len (buf b))).

(** The states a program can build: from [New], by calls that complete.
    Arguments are Go values: an [int] is in range, a slice is no longer
    than [max_len], and [make] is asked for at most [max_len] slots. *)
Inductive reachable : Ring -> Prop :=
| reach_New capacity b :
    capacity <= max_len -> New capacity = Done b -> reachable b
| reach_Add b v b' e :
    reachable b -> Add b v = Done (b', e) -> reachable b'
| reach_AddAll b values b' e :
    reachable b -> len values <= max_len ->
    AddAll b values = Done (b', e) -> reachable b'
| reach_Remove b count :
    reachable b -> in_int count -> reachable (Remove b count)
| reach_Push b v b' :
    reachable b -> Push b v = Done b' -> reachable b'
| reach_SetCapacity b capacity b' :
    reachable b -> in_int capacity -> capacity <= max_len ->
    SetCapacity b capacity = Done b' -> reachable b'
| reach_Get b i r :
    reachable b -> in_int i -> Get b i = Done r -> reachable b.

(** The slot of the value at offset [i] from the head. *)
Definition slot (b : Ring) (i : Z) : nat :=
  Z.to_nat ((head b - i mod size b) mod len (buf b)).

(** The ring after one copy of [n] values by [AddAll]. *)
Definition copied (b : Ring) (n : nat) (values : list V) : Ring :=
  {| head := (head b + Z.of_nat n) mod len (buf b);
     size := size b + Z.of_nat n;
     buf := overwrite (buf b) (Z.to_nat ((head b + 1) mod len (buf b)))
              (firstn n values) |}.
End Ring.

Arguments Ring V : clear implicits.
Arguments mkRing {V} head size buf.

(** ** Rings of ints *)

(** The values of the tests and examples of the package: an
    [interface{}] that is [nil] or holds an [int]. *)
Inductive iface : Type :=
| INil
| IInt (n : Z).

(** [==] on these values. *)
Definition iface_eqb (x y : iface) : bool :=
  match x, y with
  | INil, INil => true
  | IInt n, IInt m => n =? m
  | _, _ => false
  end.

(** [New(0)]. *)
Definition ring_zero : Ring iface :=
  {| head := -1; size := 0; buf := [] |}.

(** [New(5)]. *)
Definition ring_empty : Ring iface :=
  {| head := -1; size := 0; buf := [INil; INil; INil; INil; INil] |}.

(** [New(5)], [AddAll(1,2,3)]. *)
Definition ring_123 : Ring iface :=
  {| head := 2; size := 3; buf := [IInt 1; IInt 2; IInt 3; INil; INil] |}.

(** [New(5)], [AddAll(1,2,3)], [Remove(1)]. *)
Definition ring_23 : Ring iface :=
  {| head := 2; size := 2; buf := [IInt 1; IInt 2; IInt 3; INil; INil] |}.

(** [New(3)], [AddAll(1,2,3)]: a full ring. *)
Definition ring_full : Ring iface :=
  {| head := 2; size := 3; buf := [IInt 1; IInt 2; IInt 3] |}.

(** [New(6)], [AddAll(1,2,3,4)], [Remove(3)]: one value, free slots on
    both sides of it. *)
Definition ring_4 : Ring iface :=
  {| head := 3; size := 1;
     buf := [IInt 1; IInt 2; IInt 3; IInt 4; INil; INil] |}.

(** [ring_4] after [AddAll(5,6,7,8)]: the live window wraps past the end
    of the buffer. *)
Definition ring_wrapped : Ring iface :=
  {| head := 1; size := 5;
     buf := [IInt 7; IInt 8; IInt 3; IInt 4; IInt 5; IInt 6] |}.

(** * Properties *)

(** ** Integer arithmetic *)

Ltac int_bounds :=
  unfold in_int, min_int, max_int, max_len, max_alloc in *.

Ltac int_lia := int_bounds; lia.

Lemma wrap_small (z : Z) : in_int z -> wrap z = z.
Proof.
  intros Hz. unfold wrap. int_bounds.
  rewrite Z.mod_small by lia. lia.
Qed.

Lemma rem_range (a b : Z) : 0 < b -> - b < Z.rem a b < b.
Proof.
  intros Hb.
  destruct (Z.lt_ge_cases a 0) as [Hlt|Hge].
  - assert (0 <= - a) as Hna by lia.
    pose proof (Z.rem_bound_pos (- a) b Hna Hb) as Hr.
    rewrite Z.rem_opp_l in Hr by lia. lia.
  - pose proof (Z.rem_bound_pos a b Hge Hb). lia.
Qed.

(** Truncated remainder, then one correction: the true modulo. *)
Lemma rem_fold (a b : Z) :
  0 < b ->
  (if Z.rem a b <? 0 then Z.rem a b + b else Z.rem a b) = a mod b.
Proof.
  intros Hb.
  pose proof (Z.quot_rem' a b) as Hqr.
  pose proof (rem_range a b Hb) as Hr.
  destruct (Z.ltb_spec (Z.rem a b) 0) as [Hneg | Hpos].
  - apply Z.mod_unique with (q := Z.quot a b - 1); lia.
  - apply Z.mod_unique with (q := Z.quot a b); lia.
Qed.

Lemma Next_mod (i latest capacity : Z) :
  0 < capacity <= max_int -> in_int (latest + i) ->
  Next i latest capacity = Done ((latest + i) mod capacity).
Proof.
  intros Hc Hs. unfold Next.
  destruct (Z.eqb_spec capacity 0) as [|_]; [lia|].
  rewrite (wrap_small _ Hs).
  pose proof (rem_range (latest + i) capacity (proj1 Hc)) as Hr.
  rewrite <- (rem_fold (latest + i) capacity) by lia.
  destruct (Z.ltb_spec (Z.rem (latest + i) capacity) 0); [|reflexivity].
  rewrite wrap_small by int_lia. reflexivity.
Qed.

Lemma Index_loop_nonneg (fuel : nat) (pos capacity : Z) :
  0 <= pos -> Index_loop fuel pos capacity = Done pos.
Proof.
  intros Hp. destruct fuel; simpl;
    destruct (Z.ltb_spec pos 0); try lia; reflexivity.
Qed.

Lemma Index_loop_once (fuel : nat) (pos capacity : Z) :
  pos < 0 -> 0 <= pos + capacity -> in_int (pos + capacity) ->
  Index_loop (S fuel) pos capacity = Done (pos + capacity).
Proof.
  intros Hp Hq Hr. simpl.
  destruct (Z.ltb_spec pos 0); [|lia].
  rewrite (wrap_small _ Hr). apply Index_loop_nonneg. assumption.
Qed.

(** [Index] on a valid state: fold the offset modulo the size, step back
    from the head, fold modulo the capacity. *)
Lemma Index_mod (i head size capacity : Z) :
  in_int i -> 0 < size <= capacity -> capacity <= max_int ->
  0 <= head < capacity ->
  Index i head size capacity = Done ((head - i mod size) mod capacity).
Proof.
  intros Hi Hs Hc Hh. unfold Index.
  destruct (Z.eqb_spec size 0) as [|_]; [lia|].
  pose proof (rem_range i size (proj1 Hs)) as Hr.
  pose proof (rem_fold i size (proj1 Hs)) as Hf.
  pose proof (Z.mod_pos_bound i size (proj1 Hs)) as Hm.
  assert ((if Z.rem i size <? 0 then wrap (Z.rem i size + size)
           else Z.rem i size) = i mod size) as ->.
  { destruct (Z.ltb_spec (Z.rem i size) 0).
    - rewrite wrap_small by int_lia. assumption.
    - assumption. }
  rewrite wrap_small by int_lia. cbv zeta.
  destruct (Z.ltb_spec 0 capacity); [|lia].
  destruct (Z.lt_ge_cases (head - i mod size) 0) as [Hneg|Hpos].
  - destruct (Z.to_nat (- (head - i mod size))) as [|fuel] eqn:Hfuel; [lia|].
    rewrite Index_loop_once by int_lia.
    f_equal. apply Z.mod_unique with (q := -1); lia.
  - rewrite Index_loop_nonneg by assumption.
    f_equal. apply Z.mod_unique with (q := 0); lia.
Qed.

(** With a negative capacity the loop of [Index] ends by wrap-around:
    from [-1], two rounds of adding [-2^62] give [2^63 - 1]. *)
Lemma Index_negative_capacity_wraps :
  Index 1 0 5 (-4611686018427387904) = Done 9223372036854775807.
Proof.
  unfold Index.
  change (5 =? 0) with false. cbv beta iota zeta.
  change (Z.rem 1 5) with 1. change (1 <? 0) with false. cbv iota.
  change (wrap (0 - 1)) with (-1).
  change (0 <? -4611686018427387904) with false. cbv iota.
  destruct (Z.to_nat 9223372036854775808) as [|[|fuel]] eqn:Hfuel;
    [lia|lia|].
  cbn [Index_loop].
  change (-1 <? 0) with true. cbv iota.
  change (wrap (-1 + -4611686018427387904)) with (-4611686018427387905).
  change (-4611686018427387905 <? 0) with true. cbv iota.
  change (wrap (-4611686018427387905 + -4611686018427387904))
    with 9223372036854775807.
  apply Index_loop_nonneg. lia.
Qed.

(** ** Slices as lists *)

Section SliceFacts.
Context {A : Type}.
Implicit Types (s dst src : list A).

Lemma length_overwrite dst off src :
  (off + length src <= length dst)%nat ->
  length (overwrite dst off src) = length dst.
Proof.
  intros H. unfold overwrite.
  rewrite !length_app, length_firstn, length_skipn. lia.
Qed.

Lemma nth_overwrite dst off src (j : nat) (d : A) :
  (off + length src <= length dst)%nat ->
  nth j (overwrite dst off src) d =
  if (off <=? j)%nat && (j <? off + length src)%nat
  then nth (j - off) src d else nth j dst d.
Proof.
  intros H. unfold overwrite.
  assert (length (firstn off dst) = off) as Hl
    by (rewrite length_firstn; lia).
  destruct (Nat.leb_spec off j) as [Hle|Hlt]; simpl.
  - rewrite app_nth2 by lia. rewrite Hl.
    destruct (Nat.ltb_spec j (off + length src)) as [Hin|Hout].
    + rewrite app_nth1 by lia. reflexivity.
    + rewrite app_nth2 by lia. rewrite nth_skipn. f_equal. lia.
  - rewrite app_nth1 by lia. rewrite nth_firstn.
    destruct (Nat.ltb_spec j off); [reflexivity|lia].
Qed.

Lemma overwrite_cons dst off (v : A) src :
  (off + S (length src) <= length dst)%nat ->
  overwrite (overwrite dst off [v]) (S off) src = overwrite dst off (v :: src).
Proof.
  intros H.
  assert (length (overwrite dst off [v]) = length dst) as Hl1
    by (apply length_overwrite; simpl; lia).
  assert (off + length (v :: src) <= length dst)%nat as H' by (simpl; lia).
  assert (S off + length src <= length (overwrite dst off [v]))%nat as H''
    by lia.
  assert (off + length [v] <= length dst)%nat as Hv by (simpl; lia).
  destruct dst as [|d0 dst'] eqn:Hdst; [simpl in H; lia|]. rewrite <- Hdst in *.
  apply nth_ext with (d := d0) (d' := d0).
  - rewrite (length_overwrite _ _ _ H''), (length_overwrite _ _ _ H'). exact Hl1.
  - intros j _.
    rewrite (nth_overwrite _ _ _ _ _ H''), (nth_overwrite _ _ _ _ _ H'),
      (nth_overwrite _ _ _ _ _ Hv).
    simpl length.
    destruct (Nat.leb_spec (S off) j), (Nat.leb_spec off j),
      (Nat.ltb_spec j (S off + length src)),
      (Nat.ltb_spec j (off + S (length src))),
      (Nat.ltb_spec j (off + 1)); simpl; try lia; try reflexivity.
    + replace (j - off)%nat with (S (j - S off)) by lia. reflexivity.
    + replace (j - off)%nat with O by lia. reflexivity.
Qed.

Lemma slice_ok s (lo hi : Z) :
  0 <= lo <= hi -> hi <= len s ->
  slice s lo hi =
  Done (firstn (Z.to_nat (hi - lo)) (skipn (Z.to_nat lo) s)).
Proof.
  intros H1 H2. unfold slice.
  destruct (Z.leb_spec 0 lo), (Z.leb_spec lo hi), (Z.leb_spec hi (len s));
    try lia. reflexivity.
Qed.

Lemma slice_from_ok s (lo : Z) :
  0 <= lo <= len s -> slice_from s lo = Done (skipn (Z.to_nat lo) s).
Proof.
  intros H. unfold slice_from. rewrite slice_ok by lia.
  f_equal. apply firstn_all2. rewrite length_skipn. unfold len in *. lia.
Qed.

(** A copy that is cut short by the source or by the end of [dst]. *)
Lemma copy_at_ok dst (off : Z) src :
  0 <= off <= len dst ->
  copy_at dst off src =
  let n := Nat.min (length dst - Z.to_nat off) (length src) in
  Done (overwrite dst (Z.to_nat off) (firstn n src), Z.of_nat n).
Proof.
  intros H. unfold copy_at. rewrite slice_from_ok by assumption.
  simpl. rewrite length_skipn. do 2 f_equal.
  unfold overwrite. do 2 f_equal.
  rewrite skipn_skipn, length_firstn. f_equal. lia.
Qed.

(** A copy with room for the whole source. *)
Lemma copy_at_fits dst (off : Z) src :
  0 <= off -> off + len src <= len dst ->
  copy_at dst off src = Done (overwrite dst (Z.to_nat off) src, len src).
Proof.
  intros H1 H2. unfold len in *. rewrite copy_at_ok by (unfold len; lia).
  simpl. rewrite Nat.min_r by lia. rewrite firstn_all. reflexivity.
Qed.

Lemma store_ok s (i : Z) (v : A) :
  0 <= i < len s -> store s i v = Done (overwrite s (Z.to_nat i) [v]).
Proof.
  intros H. unfold store.
  destruct (Z.leb_spec 0 i), (Z.ltb_spec i (len s)); try lia. simpl.
  unfold overwrite. simpl. rewrite Nat.add_1_r. reflexivity.
Qed.

Lemma load_ok s (i : Z) (d : A) :
  0 <= i < len s -> load s i d = Done (nth (Z.to_nat i) s d).
Proof.
  intros H. unfold load.
  destruct (Z.leb_spec 0 i), (Z.ltb_spec i (len s)); try lia. reflexivity.
Qed.

Lemma make_ok (n : Z) (d : A) :
  0 <= n <= max_alloc -> make n d = Done (repeat d (Z.to_nat n)).
Proof.
  intros H. unfold make.
  destruct (Z.ltb_spec n 0), (Z.ltb_spec max_alloc n); try lia. reflexivity.
Qed.

Lemma make_too_long (n : Z) (d : A) :
  max_alloc < n -> make n d = Panic MakeLen.
Proof.
  intros H. unfold make.
  destruct (Z.ltb_spec n 0), (Z.ltb_spec max_alloc n); try lia; reflexivity.
Qed.

Lemma len_repeat (n : Z) (d : A) : 0 <= n -> len (repeat d (Z.to_nat n)) = n.
Proof. intros H. unfold len. rewrite repeat_length. lia. Qed.
End SliceFacts.

(** ** Ring states *)

Section RingFacts.
Context {V : Type} (nil : V) (box : Z -> V).
Implicit Types (b : Ring V) (v : V) (values : list V).

Abbreviation cap b := (len (buf b)).

Lemma len_nonneg {A} (s : list A) : 0 <= len s.
Proof. unfold len. lia. Qed.

Lemma Get_empty b i :
  size b = 0 -> Get nil box b i = Done (box 0, Some EmptyError).
Proof. intros H. unfold Get. rewrite H. reflexivity. Qed.

Lemma Get_at_slot b i :
  0 < size b <= cap b -> cap b <= max_int -> 0 <= head b < cap b ->
  in_int i ->
  Get nil box b i = Done (nth (slot b i) (buf b) nil, None).
Proof.
  intros Hs Hc Hh Hi.
  unfold Get. destruct (Z.eqb_spec (size b) 0); [lia|].
  rewrite Index_mod by assumption. simpl.
  pose proof (Z.mod_pos_bound (head b - i mod size b) (cap b)).
  rewrite load_ok by lia. reflexivity.
Qed.

Lemma Get_slot b i :
  valid b -> 0 < size b -> in_int i ->
  Get nil box b i = Done (nth (slot b i) (buf b) nil, None).
Proof.
  intros [Hc [[H0 _]|[Hs Hh]]] Hpos Hi; [lia|].
  apply Get_at_slot; try assumption. int_lia.
Qed.

(** Where [Add], [AddAll] and [Push] write next. *)
Lemma Next_one b :
  valid b -> 0 < cap b ->
  Next 1 (head b) (cap b) = Done ((head b + 1) mod cap b).
Proof.
  intros [Hc Hv] Hpos. apply Next_mod; int_lia.
Qed.

Lemma Add_full b v :
  size b >= cap b -> Add b v = Done (b, Some FullError).
Proof.
  intros H. unfold Add.
  destruct (Z.geb_spec (size b) (cap b)); [reflexivity|lia].
Qed.

Lemma Add_room b v :
  valid b -> size b < cap b ->
  Add b v =
  Done ({| head := (head b + 1) mod cap b;
           size := size b + 1;
           buf := overwrite (buf b) (Z.to_nat ((head b + 1) mod cap b)) [v] |},
        None).
Proof.
  intros Hv Hlt. pose proof Hv as [Hc Hs]. unfold Add.
  destruct (Z.geb_spec (size b) (cap b)); [lia|].
  rewrite Next_one by (assumption || lia). simpl.
  pose proof (Z.mod_pos_bound (head b + 1) (cap b)).
  rewrite store_ok by lia. simpl.
  rewrite wrap_small by int_lia. reflexivity.
Qed.

Lemma Push_noop b v :
  cap b = 0 \/ size b = 0 -> Push b v = Done b.
Proof.
  intros H. unfold Push.
  destruct (Z.eqb_spec (cap b) 0), (Z.eqb_spec (size b) 0);
    simpl; try reflexivity; lia.
Qed.

Lemma Push_write b v :
  valid b -> 0 < size b ->
  Push b v =
  Done {| head := (head b + 1) mod cap b;
          size := size b;
          buf := overwrite (buf b) (Z.to_nat ((head b + 1) mod cap b)) [v] |}.
Proof.
  intros Hv Hpos. pose proof Hv as [Hc [[H0 _]|[Hs Hh]]]; [lia|].
  unfold Push.
  destruct (Z.eqb_spec (cap b) 0), (Z.eqb_spec (size b) 0); try lia. simpl.
  rewrite Next_one by (assumption || lia). simpl.
  pose proof (Z.mod_pos_bound (head b + 1) (cap b)).
  rewrite store_ok by lia. reflexivity.
Qed.

Lemma Remove_cases b count :
  valid b -> in_int count ->
  Remove b count =
  if count <=? 0 then b
  else if size b <=? count
       then {| head := -1; size := 0; buf := buf b |}
       else {| head := head b; size := size b - count; buf := buf b |}.
Proof.
  intros [Hc Hv] Hi. unfold Remove.
  destruct (Z.leb_spec count 0); [reflexivity|].
  rewrite wrap_small by int_lia.
  destruct (Z.leb_spec (size b - count) 0), (Z.leb_spec (size b) count);
    try lia; reflexivity.
Qed.

(** *** The invariant is kept *)

Lemma valid_New capacity b :
  capacity <= max_len -> New nil capacity = Done b -> valid b.
Proof.
  intros Hc. unfold New, make.
  destruct (Z.ltb_spec capacity 0), (Z.ltb_spec max_alloc capacity);
    simpl; try discriminate.
  intros [= <-]. unfold valid. simpl. rewrite len_repeat by lia.
  split; [lia|]. left. split; reflexivity.
Qed.

Lemma cap_overwrite_one b (i : Z) v :
  0 <= i < cap b -> len (overwrite (buf b) (Z.to_nat i) [v]) = cap b.
Proof.
  intros H. unfold len in *. rewrite length_overwrite; simpl; lia.
Qed.

Lemma valid_Add b v b' e :
  valid b -> Add b v = Done (b', e) -> valid b'.
Proof.
  intros Hv. pose proof Hv as [Hc Hs].
  destruct (Z.lt_ge_cases (size b) (cap b)) as [Hlt|Hge].
  - rewrite Add_room by assumption. intros [= <- _].
    pose proof (Z.mod_pos_bound (head b + 1) (cap b)).
    unfold valid. simpl. rewrite cap_overwrite_one by lia.
    split; [assumption|]. right. lia.
  - rewrite Add_full by lia. intros [= <- _]. assumption.
Qed.

Lemma valid_Push b v b' :
  valid b -> Push b v = Done b' -> valid b'.
Proof.
  intros Hv. pose proof Hv as [Hc Hs].
  destruct (Z.eq_dec (size b) 0) as [H0|Hn].
  - rewrite Push_noop by (right; assumption). intros [= <-]. assumption.
  - rewrite Push_write by (assumption || lia). intros [= <-].
    pose proof (Z.mod_pos_bound (head b + 1) (cap b)).
    unfold valid. simpl. rewrite cap_overwrite_one by lia.
    split; [assumption|]. right. lia.
Qed.

Lemma valid_Remove b count :
  valid b -> in_int count -> valid (Remove b count).
Proof.
  intros Hv Hi. rewrite Remove_cases by assumption.
  destruct Hv as [Hc Hs].
  destruct (Z.leb_spec count 0); [split; assumption|].
  destruct (Z.leb_spec (size b) count); unfold valid; simpl.
  - split; [assumption|]. left. split; reflexivity.
  - split; [assumption|]. right. lia.
Qed.

(** *** AddAll and looping over Add *)

Lemma AddEach_app values1 values2 b b1 :
  AddEach b values1 = Done (b1, None) ->
  AddEach b (values1 ++ values2) = AddEach b1 values2.
Proof.
  revert b. induction values1 as [|v values1 IH]; intros b; simpl.
  - intros [= <-]. reflexivity.
  - destruct (Add b v) as [[b0 [e|]]| |]; simpl; try discriminate.
    apply IH.
Qed.

(** Values added one by one into a run of free slots that does not
    reach the end of the buffer land there in order. *)
Lemma AddEach_span values : forall b,
  valid b -> values <> [] ->
  (head b + 1) mod cap b + len values <= cap b ->
  size b + len values <= cap b ->
  AddEach b values =
  Done ({| head := (head b + 1) mod cap b + len values - 1;
           size := size b + len values;
           buf := overwrite (buf b) (Z.to_nat ((head b + 1) mod cap b))
                    values |},
        None).
Proof.
  induction values as [|v values IH]; intros b Hv Hne Hfit Hroom;
    [congruence|].
  assert (len (v :: values) = 1 + len values) as Hlen
    by (unfold len; simpl length; lia).
  rewrite Hlen in *.
  pose proof (len_nonneg values) as Hl.
  pose proof Hv as [Hc Hs].
  assert (0 < cap b) as Hpos by lia.
  pose proof (Z.mod_pos_bound (head b + 1) (cap b) Hpos) as Hnext.
  simpl AddEach. rewrite Add_room by (assumption || lia).
  simpl bind. cbv beta iota. simpl snd. simpl fst.
  destruct values as [|w values'] eqn:Hvals.
  - simpl. do 2 f_equal. unfold len. simpl. f_equal; lia.
  - rewrite <- Hvals in *.
    assert (1 <= len values) as Hl1
      by (rewrite Hvals; unfold len; simpl length; lia).
    set (b1 := {| head := (head b + 1) mod cap b; size := size b + 1;
                  buf := overwrite (buf b)
                           (Z.to_nat ((head b + 1) mod cap b)) [v] |}).
    assert (cap b1 = cap b) as Hcap1
      by (apply cap_overwrite_one; lia).
    assert (valid b1) as Hv1.
    { unfold valid. rewrite Hcap1. simpl. split; [assumption|]. right. lia. }
    assert ((head b1 + 1) mod cap b1 = (head b + 1) mod cap b + 1) as Hn1.
    { rewrite Hcap1. simpl. apply Z.mod_small. lia. }
    rewrite IH; try assumption.
    + rewrite Hn1. cbn [head size buf b1]. do 2 f_equal. f_equal; try lia.
      replace (Z.to_nat ((head b + 1) mod cap b + 1))
        with (S (Z.to_nat ((head b + 1) mod cap b))) by lia.
      apply overwrite_cons. unfold len in *. lia.
    + rewrite Hvals. discriminate.
    + rewrite Hn1, Hcap1. lia.
    + rewrite Hcap1. simpl. lia.
Qed.

(** One round of the loop of [AddAll]. *)
Lemma AddAll_loop_round fuel b values :
  valid b -> values <> [] -> len values <= max_len ->
  size b + len values <= cap b ->
  let next := (head b + 1) mod cap b in
  let n := Nat.min (length (buf b) - Z.to_nat next) (length values) in
  (1 <= n)%nat /\
  AddAll_loop (S fuel) b values =
  (r <- AddAll_loop fuel (copied b n values) (skipn n values) ;;
   Done (fst r, (next, Z.of_nat n) :: snd r)).
Proof.
  intros Hv Hne Hmax Hroom next n.
  pose proof Hv as [Hc Hs].
  assert (1 <= len values) as Hl1
    by (destruct values; [congruence|unfold len; simpl length; lia]).
  assert (0 < cap b) as Hpos by lia.
  pose proof (Z.mod_pos_bound (head b + 1) (cap b) Hpos) as Hnext.
  fold next in Hnext.
  assert (1 <= n)%nat as Hn by (unfold n, len in *; lia).
  split; [assumption|].
  destruct values as [|v values']; [congruence|].
  remember (v :: values') as values eqn:Hvals.
  simpl AddAll_loop. rewrite Hvals at 1. rewrite Next_one by assumption.
  simpl bind. fold next.
  rewrite copy_at_ok by lia. simpl bind. fold n.
  destruct (Z.eqb_spec (Z.of_nat n) 0); [lia|].
  rewrite Next_mod by (unfold n, len in *; int_lia). simpl bind.
  rewrite wrap_small by (unfold n, len in *; int_lia).
  rewrite slice_from_ok by (unfold n, len in *; lia).
  rewrite Nat2Z.id. reflexivity.
Qed.

Lemma AddAll_loop_nil fuel b : AddAll_loop fuel b [] = Done (b, []).
Proof. destruct fuel; reflexivity. Qed.

Lemma copied_facts b (n : nat) values :
  valid b -> (1 <= n <= length values)%nat ->
  (head b + 1) mod cap b + Z.of_nat n <= cap b ->
  size b + Z.of_nat n <= cap b ->
  valid (copied b n values) /\
  cap (copied b n values) = cap b /\
  head (copied b n values) = (head b + 1) mod cap b + Z.of_nat n - 1.
Proof.
  intros Hv Hn Hfit Hroom. pose proof Hv as [Hc Hs].
  assert (0 < cap b) as Hpos by lia.
  pose proof (Z.mod_pos_bound (head b + 1) (cap b) Hpos) as Hnext.
  assert (cap (copied b n values) = cap b) as Hcap.
  { unfold copied, len in *. simpl.
    rewrite length_overwrite; [reflexivity|].
    rewrite length_firstn. lia. }
  assert (head (copied b n values)
          = (head b + 1) mod cap b + Z.of_nat n - 1) as Hhead.
  { unfold copied. simpl.
    replace (head b + Z.of_nat n) with ((head b + 1) + (Z.of_nat n - 1))
      by lia.
    rewrite <- Z.add_mod_idemp_l by lia.
    rewrite Z.mod_small by lia. lia. }
  split; [|split; assumption].
  unfold valid. rewrite Hcap, Hhead. split; [assumption|].
  right. unfold copied. simpl. lia.
Qed.

(** A round whose values all fit before the end of the buffer is the
    last one, and does what adding them one by one does. *)
Lemma AddAll_loop_fits fuel b values :
  valid b -> values <> [] -> len values <= max_len ->
  size b + len values <= cap b ->
  (head b + 1) mod cap b + len values <= cap b ->
  AddAll_loop (S fuel) b values =
    Done (copied b (length values) values,
          [((head b + 1) mod cap b, len values)]) /\
  AddEach b values = Done (copied b (length values) values, None).
Proof.
  intros Hv Hne Hmax Hroom Hfit. pose proof Hv as [Hc Hs].
  pose proof (len_nonneg values) as Hl.
  assert (0 < cap b) as Hpos
    by (destruct values; [congruence|unfold len in *; simpl length in *; lia]).
  pose proof (Z.mod_pos_bound (head b + 1) (cap b) Hpos) as Hnext.
  destruct (AddAll_loop_round fuel b values Hv Hne Hmax Hroom) as [Hn Hround].
  rewrite Nat.min_r in Hround, Hn by (unfold len in *; lia).
  split.
  - rewrite Hround, skipn_all, AddAll_loop_nil. reflexivity.
  - rewrite AddEach_span by assumption.
    destruct (copied_facts b (length values) values Hv) as (_ & _ & Hhead);
      try (unfold len in *; lia).
    unfold copied in *. simpl in Hhead. rewrite firstn_all.
    unfold len in *. rewrite Hhead. reflexivity.
Qed.

(** [AddAll] on a ring with room: at most two rounds, each copying at
    least one value into a run of slots, with the result of adding the
    values one by one. *)
Lemma AddAll_loop_AddEach b values :
  valid b -> len values <= max_len -> size b + len values <= cap b ->
  exists b' spans,
    AddAll_loop (length values) b values = Done (b', spans) /\
    AddEach b values = Done (b', None) /\
    valid b' /\ size b' = size b + len values /\ cap b' = cap b /\
    (length spans <= 2)%nat /\
    Forall (fun s : span =>
              1 <= snd s /\ 0 <= fst s /\ fst s + snd s <= cap b) spans.
Proof.
  intros Hv Hmax Hroom. pose proof Hv as [Hc Hs].
  destruct values as [|v values'].
  { exists b, []. simpl. unfold len. simpl.
    repeat split; try assumption; try lia. constructor. }
  remember (v :: values') as values eqn:Hvals.
  assert (values <> []) as Hne by (subst; discriminate).
  assert (length values = S (length values')) as Hlen by (subst; reflexivity).
  assert (0 < cap b) as Hpos by (unfold len in *; lia).
  pose proof (Z.mod_pos_bound (head b + 1) (cap b) Hpos) as Hnext.
  set (next := (head b + 1) mod cap b) in *.
  destruct (Z.le_gt_cases (next + len values) (cap b)) as [Hfit|Hwrap].
  - (* one copy *)
    destruct (AddAll_loop_fits (length values') b values) as [Hloop Heach];
      try assumption.
    destruct (copied_facts b (length values) values Hv)
      as (Hv' & Hcap' & _); try (unfold len in *; fold next; lia).
    rewrite <- Hlen in Hloop.
    eexists _, _. split; [exact Hloop|]. split; [exact Heach|].
    split; [assumption|]. split; [reflexivity|]. split; [assumption|].
    split; [simpl; lia|].
    constructor; [|constructor]. simpl. fold next. unfold len in *. lia.
  - (* two copies: up to the end of the buffer, then from its start *)
    destruct (AddAll_loop_round (length values') b values Hv Hne Hmax Hroom)
      as [Hn Hround].
    fold next in Hround, Hn.
    set (n := Nat.min (length (buf b) - Z.to_nat next) (length values)) in *.
    assert (Z.of_nat n = cap b - next) as Hnz by (unfold n, len in *; lia).
    destruct (copied_facts b n values Hv) as (Hv1 & Hcap1 & Hhead1);
      try (fold next; unfold len in *; lia).
    fold next in Hhead1.
    set (b1 := copied b n values) in *.
    set (rest := skipn n values) in *.
    assert (length rest = (length values - n)%nat) as Hrest
      by (unfold rest; apply length_skipn).
    assert (rest <> []) as Hrne.
    { intros Heq. rewrite Heq in Hrest. simpl in Hrest. unfold len in *. lia. }
    assert ((head b1 + 1) mod cap b1 = 0) as Hnext1.
    { rewrite Hhead1, Hcap1, Hnz.
      replace (next + (cap b - next) - 1 + 1) with (cap b) by lia.
      apply Z.mod_same. lia. }
    assert (size b1 = size b + Z.of_nat n) as Hsize1 by reflexivity.
    destruct (length values') as [|fuel] eqn:Hfuel;
      [unfold len in *; lia|].
    destruct (AddAll_loop_fits fuel b1 rest) as [Hloop Heach];
      try assumption; try (rewrite ?Hnext1, ?Hsize1, ?Hcap1; unfold len in *; lia).
    destruct (copied_facts b1 (length rest) rest Hv1)
      as (Hv2 & Hcap2 & _);
      try (rewrite ?Hnext1, ?Hsize1, ?Hcap1; unfold len in *; lia).
    rewrite Hloop in Hround. cbn [bind fst snd] in Hround.
    rewrite <- Hlen in Hround.
    assert (AddEach b values = Done (copied b1 (length rest) rest, None))
      as Hall.
    { rewrite <- (firstn_skipn n values) at 1.
      rewrite (AddEach_app _ _ b b1); [exact Heach|].
      rewrite AddEach_span; try assumption.
      - assert (len (firstn n values) = Z.of_nat n) as ->
          by (unfold len; rewrite length_firstn; unfold n; lia).
        fold next. rewrite <- Hhead1. reflexivity.
      - intros Heq. apply (f_equal (@length V)) in Heq.
        rewrite length_firstn in Heq. simpl in Heq. unfold n in *. lia.
      - fold next. unfold len in *. rewrite length_firstn. lia.
      - unfold len in *. rewrite length_firstn. lia. }
    eexists _, _. split; [exact Hround|]. split; [exact Hall|].
    split; [assumption|].
    split; [unfold copied; simpl; unfold len in *; lia|].
    split; [congruence|]. split; [simpl; lia|].
    rewrite Hnext1.
    constructor; [|constructor; [|constructor]]; cbn [fst snd];
      unfold len in *; lia.
Qed.

Lemma AddAll_spans_full b values :
  valid b -> len values <= max_len -> size b + len values > cap b ->
  AddAll_spans b values = Done (b, Some FullError, []).
Proof.
  intros [Hc Hs] Hmax Hfull. unfold AddAll_spans.
  pose proof (len_nonneg values).
  rewrite wrap_small by int_lia.
  destruct (Z.gtb_spec (size b + len values) (cap b)); [reflexivity|lia].
Qed.

Lemma AddAll_spans_room b values :
  valid b -> len values <= max_len -> size b + len values <= cap b ->
  exists b' spans,
    AddAll_spans b values = Done (b', None, spans) /\
    AddEach b values = Done (b', None) /\
    valid b' /\ size b' = size b + len values /\ cap b' = cap b /\
    (length spans <= 2)%nat /\
    Forall (fun s : span =>
              1 <= snd s /\ 0 <= fst s /\ fst s + snd s <= cap b) spans.
Proof.
  intros Hv Hmax Hroom.
  destruct (AddAll_loop_AddEach b values Hv Hmax Hroom)
    as (b' & spans & Hloop & Hrest).
  exists b', spans. split; [|exact Hrest].
  destruct Hv as [Hc Hs]. unfold AddAll_spans.
  pose proof (len_nonneg values).
  rewrite wrap_small by int_lia.
  destruct (Z.gtb_spec (size b + len values) (cap b)); [lia|].
  rewrite Hloop. reflexivity.
Qed.

Lemma valid_AddAll b values b' e :
  valid b -> len values <= max_len ->
  AddAll b values = Done (b', e) -> valid b'.
Proof.
  intros Hv Hmax. unfold AddAll.
  destruct (Z.le_gt_cases (size b + len values) (cap b)) as [Hroom|Hfull].
  - destruct (AddAll_spans_room b values Hv Hmax Hroom)
      as (b1 & spans & -> & _ & Hv1 & _).
    simpl. intros [= <- _]. assumption.
  - rewrite AddAll_spans_full by (assumption || lia).
    simpl. intros [= <- _]. assumption.
Qed.

(** *** SetCapacity *)

Lemma SetCapacity_noop b capacity :
  Z.max capacity (size b) = cap b -> SetCapacity nil b capacity = Done b.
Proof.
  intros H. unfold SetCapacity.
  destruct (Z.ltb_spec capacity (size b));
    [rewrite Z.max_r in H by lia | rewrite Z.max_l in H by lia];
    rewrite H, Z.eqb_refl; reflexivity.
Qed.

(** The tail of a ring that is not empty. *)
Lemma Index_tail b :
  valid b -> 0 < size b ->
  Index (-1) (head b) (size b) (cap b) =
  Done ((head b - (size b - 1)) mod cap b).
Proof.
  intros [Hc [[H0 _]|[Hs Hh]]] Hpos; [lia|].
  rewrite Index_mod by int_lia. do 3 f_equal.
  symmetry. apply Z.mod_unique with (q := -1); lia.
Qed.

(** The live window in one piece, copied to the front of a new
    buffer. *)
Lemma linear_one_piece (s : list V) (c tail sz : nat) :
  (tail + sz <= length s)%nat -> (sz <= c)%nat ->
  let nbuf := overwrite (repeat nil c) 0 (firstn sz (skipn tail s)) in
  length nbuf = c /\
  forall j, (j < sz)%nat -> nth j nbuf nil = nth (tail + j) s nil.
Proof.
  intros Hs Hc nbuf.
  assert (length (firstn sz (skipn tail s)) = sz) as Hl
    by (rewrite length_firstn, length_skipn; lia).
  assert (0 + length (firstn sz (skipn tail s)) <= length (repeat nil c))%nat
    as Hfit by (rewrite repeat_length; lia).
  split.
  - unfold nbuf. rewrite length_overwrite by assumption.
    apply repeat_length.
  - intros j Hj. unfold nbuf. rewrite nth_overwrite by assumption.
    rewrite Hl. simpl.
    destruct (Nat.ltb_spec j sz); [|lia].
    rewrite Nat.sub_0_r, nth_firstn.
    destruct (Nat.ltb_spec j sz); [|lia].
    apply nth_skipn.
Qed.

(** The live window in two pieces: the end of the old buffer, then its
    start. *)
Lemma linear_two_pieces (s : list V) (c tail h1 : nat) :
  (tail <= length s)%nat -> (h1 <= length s)%nat ->
  (length s - tail + h1 <= c)%nat ->
  let m := (length s - tail)%nat in
  let nbuf :=
    overwrite (overwrite (repeat nil c) 0 (skipn tail s)) m (firstn h1 s) in
  length nbuf = c /\
  (forall j, (j < m)%nat -> nth j nbuf nil = nth (tail + j) s nil) /\
  (forall j, (m <= j < m + h1)%nat -> nth j nbuf nil = nth (j - m) s nil).
Proof.
  intros Ht Hh Hc m nbuf.
  assert (length (skipn tail s) = m) as Hl1 by apply length_skipn.
  assert (length (firstn h1 s) = h1) as Hl2
    by (rewrite length_firstn; lia).
  assert (0 + length (skipn tail s) <= length (repeat nil c))%nat as Hfit1
    by (rewrite repeat_length; lia).
  assert (length (overwrite (repeat nil c) 0 (skipn tail s)) = c) as Hlen1
    by (rewrite length_overwrite by assumption; apply repeat_length).
  assert (m + length (firstn h1 s)
          <= length (overwrite (repeat nil c) 0 (skipn tail s)))%nat
    as Hfit2 by lia.
  split; [|split].
  - unfold nbuf. rewrite length_overwrite by assumption. assumption.
  - intros j Hj. unfold nbuf.
    rewrite nth_overwrite by assumption.
    destruct (Nat.leb_spec m j); [lia|]. simpl.
    rewrite nth_overwrite by assumption. rewrite Hl1. simpl.
    destruct (Nat.ltb_spec j m); [|lia].
    rewrite Nat.sub_0_r. apply nth_skipn.
  - intros j Hj. unfold nbuf.
    rewrite nth_overwrite by assumption. rewrite Hl2.
    destruct (Nat.leb_spec m j); [|lia].
    destruct (Nat.ltb_spec j (m + h1)); [|lia]. simpl.
    rewrite nth_firstn.
    destruct (Nat.ltb_spec (j - m) h1); [reflexivity|lia].
Qed.

(** [SetCapacity] on a ring that is not empty, to a capacity that
    differs from the current one: the live window moves to the front of
    the new buffer, oldest value first. *)
Lemma SetCapacity_move b capacity :
  valid b -> 0 < size b -> capacity <= max_alloc ->
  Z.max capacity (size b) <> cap b ->
  exists nbuf,
    SetCapacity nil b capacity =
      Done {| head := size b - 1; size := size b; buf := nbuf |} /\
    len nbuf = Z.max capacity (size b) /\
    forall k, 0 <= k < size b ->
      nth (Z.to_nat (size b - 1 - k)) nbuf nil =
      nth (Z.to_nat ((head b - k) mod cap b)) (buf b) nil.
Proof.
  intros Hv Hpos Hi Hne.
  pose proof Hv as [Hc [[H0 _]|[Hs Hh]]]; [lia|].
  unfold SetCapacity.
  assert ((if capacity <? size b then size b else capacity)
          = Z.max capacity (size b)) as ->.
  { destruct (Z.ltb_spec capacity (size b)); lia. }
  set (c := Z.max capacity (size b)) in *.
  assert (size b <= c) as Hcs by (unfold c; lia).
  destruct (Z.eqb_spec c (cap b)) as [|_]; [contradiction|].
  rewrite make_ok by lia. cbn [bind].
  rewrite Index_tail by assumption. cbn [bind].
  rewrite !wrap_small by int_lia.
  assert (length (repeat nil (Z.to_nat c)) = Z.to_nat c) as Hrep
    by apply repeat_length.
  destruct (Z.lt_ge_cases (head b - (size b - 1)) 0) as [Hwrap|Hflat].
  - (* the window wraps past the end of the buffer *)
    assert ((head b - (size b - 1)) mod cap b
            = head b - (size b - 1) + cap b) as ->
      by (symmetry; apply Z.mod_unique with (q := -1); lia).
    set (tail := head b - (size b - 1) + cap b).
    destruct (Z.ltb_spec tail (head b)); [unfold tail in *; lia|].
    rewrite slice_from_ok by (unfold tail; lia). cbn [bind].
    rewrite copy_at_fits;
      [|lia|unfold len in *; rewrite length_skipn, Hrep; unfold tail; lia].
    cbn [bind]. unfold slice_to. rewrite slice_ok by lia. cbn [bind].
    rewrite skipn_O, Z.sub_0_r.
    destruct (linear_two_pieces (buf b) (Z.to_nat c) (Z.to_nat tail)
                (Z.to_nat (head b + 1)))
      as (Hlen & Hlo & Hhi); try (unfold tail, len in *; lia).
    rewrite copy_at_fits;
      [|unfold len; lia
       |unfold len in *; rewrite length_firstn, length_overwrite;
        rewrite ?length_skipn, ?Hrep; unfold tail; lia].
    cbn [bind fst].
    replace (Z.to_nat (len (skipn (Z.to_nat tail) (buf b))))
      with (length (buf b) - Z.to_nat tail)%nat
      by (unfold len; rewrite length_skipn; lia).
    change (Z.to_nat 0) with O.
    eexists. split; [reflexivity|].
    split; [unfold len; rewrite Hlen; lia|].
    intros k Hk.
    destruct (Z.le_gt_cases k (head b)) as [Hle|Hgt].
    + rewrite Hhi by (unfold tail, len in *; lia).
      f_equal. rewrite Z.mod_small by lia. unfold tail, len in *. lia.
    + rewrite Hlo by (unfold tail, len in *; lia).
      f_equal.
      replace ((head b - k) mod cap b) with (head b - k + cap b)
        by (apply Z.mod_unique with (q := -1); lia).
      unfold tail, len in *. lia.
  - rewrite (Z.mod_small (head b - (size b - 1))) by lia.
    set (tail := head b - (size b - 1)).
    destruct (Z.ltb_spec tail (head b)) as [Hlt|Hge].
    + (* one piece *)
      rewrite slice_ok by (unfold tail; lia). cbn [bind].
      destruct (linear_one_piece (buf b) (Z.to_nat c) (Z.to_nat tail)
                  (Z.to_nat (size b)))
        as (Hlen & Hnth); try (unfold tail, len in *; lia).
      replace (Z.to_nat (head b + 1 - tail)) with (Z.to_nat (size b))
        by (unfold tail; lia).
      rewrite copy_at_fits;
        [|lia|unfold len in *; rewrite length_firstn, length_skipn, Hrep;
              unfold tail; lia].
      cbn [bind fst]. change (Z.to_nat 0) with O.
      eexists. split; [reflexivity|].
      split; [unfold len; rewrite Hlen; lia|].
      intros k Hk. rewrite Hnth by lia.
      f_equal. rewrite Z.mod_small by lia. unfold tail. lia.
    + (* a single value: the code takes the two-piece path *)
      assert (size b = 1) as H1 by (unfold tail in *; lia).
      assert (tail = head b) as Htl by (unfold tail; lia).
      rewrite Htl.
      rewrite slice_from_ok by lia. cbn [bind].
      rewrite copy_at_ok by (unfold len; lia). cbn [bind].
      change (Z.to_nat 0) with O.
      rewrite Nat.sub_0_r, Hrep, length_skipn.
      set (n := Nat.min (Z.to_nat c) (length (buf b) - Z.to_nat (head b))).
      assert (1 <= n <= Z.to_nat c)%nat as Hn
        by (unfold n, len in *; lia).
      assert (length (firstn n (skipn (Z.to_nat (head b)) (buf b))) = n)
        as Hl1 by (rewrite length_firstn, length_skipn; unfold n; lia).
      assert (length (overwrite (repeat nil (Z.to_nat c)) 0
                        (firstn n (skipn (Z.to_nat (head b)) (buf b))))
              = Z.to_nat c) as Hlen1
        by (rewrite length_overwrite; rewrite ?Hl1, ?Hrep; lia).
      unfold slice_to. rewrite slice_ok by lia. cbn [bind].
      rewrite copy_at_ok by (unfold len; lia). cbn [bind fst].
      rewrite Nat2Z.id, Hlen1, skipn_O, Z.sub_0_r.
      set (src2 := firstn _ (firstn _ (buf b))).
      assert (n + length src2 <= Z.to_nat c)%nat as Hfit2
        by (unfold src2; rewrite length_firstn; lia).
      eexists. split; [reflexivity|].
      split; [unfold len; rewrite length_overwrite; lia|].
      intros k Hk. assert (k = 0) as -> by lia.
      replace (Z.to_nat (size b - 1 - 0)) with O by lia.
      rewrite nth_overwrite by lia.
      destruct (Nat.leb_spec n 0); [lia|]. cbn [andb].
      rewrite nth_overwrite by (rewrite Hl1, Hrep; lia).
      rewrite Hl1. destruct (Nat.ltb_spec 0 (0 + n)); [|lia].
      cbn [Nat.leb andb Nat.sub]. rewrite nth_firstn.
      destruct (Nat.ltb_spec 0 n); [|lia].
      rewrite nth_skipn. f_equal.
      rewrite Z.sub_0_r, Z.mod_small by lia. lia.
Qed.

(** [SetCapacity] on an empty ring, to another capacity: the tail is
    the sentinel [-1] of [Index], the test [tail < head] fails, and the
    slice expression [b.buf[tail:]] is out of range. *)
Lemma SetCapacity_empty b capacity :
  size b = 0 -> head b = -1 -> Z.max capacity 0 <> cap b ->
  capacity <= max_alloc ->
  SetCapacity nil b capacity = Panic SliceBounds.
Proof.
  intros H0 Hh Hne Hmax. unfold SetCapacity. rewrite H0, Hh.
  assert ((if capacity <? 0 then 0 else capacity) = Z.max capacity 0) as ->
    by (destruct (Z.ltb_spec capacity 0); lia).
  destruct (Z.eqb_spec (Z.max capacity 0) (cap b)); [contradiction|].
  rewrite make_ok by int_lia. reflexivity.
Qed.

(** [SetCapacity] to a capacity that [make] refuses. *)
Lemma SetCapacity_too_long b capacity :
  valid b -> max_alloc < capacity ->
  SetCapacity nil b capacity = Panic MakeLen.
Proof.
  intros [Hc Hs] Hlong. unfold SetCapacity.
  destruct (Z.ltb_spec capacity (size b)); [int_lia|].
  destruct (Z.eqb_spec capacity (cap b)); [lia|].
  rewrite make_too_long by assumption. reflexivity.
Qed.

Lemma valid_SetCapacity b capacity b' :
  valid b -> in_int capacity -> capacity <= max_len ->
  SetCapacity nil b capacity = Done b' -> valid b'.
Proof.
  intros Hv Hi _. pose proof Hv as [Hc Hs].
  destruct (Z.le_gt_cases capacity max_alloc) as [Hmax|Hlong];
    [|rewrite SetCapacity_too_long by (assumption || lia); discriminate].
  destruct (Z.eq_dec (Z.max capacity (size b)) (cap b)) as [Heq|Hne].
  - rewrite SetCapacity_noop by assumption. intros [= <-]. assumption.
  - destruct Hs as [[H0 Hh]|[Hs Hh]].
    + rewrite SetCapacity_empty by (assumption || (rewrite <- H0; assumption)).
      discriminate.
    + destruct (SetCapacity_move b capacity Hv) as (nbuf & -> & Hlen & _);
        try assumption; try lia.
      intros [= <-]. unfold valid. simpl. rewrite Hlen.
      split; [lia|]. right. lia.
Qed.

Lemma reachable_valid b : reachable nil box b -> valid b.
Proof.
  induction 1 as
    [capacity b Hc HN | b v b' e _ IH HA | b values b' e _ IH Hl HA
    | b count _ IH Hc | b v b' _ IH HP | b capacity b' _ IH Hi Hc HS
    | b i r _ IH _ _].
  - exact (valid_New capacity b Hc HN).
  - exact (valid_Add b v b' e IH HA).
  - exact (valid_AddAll b values b' e IH Hl HA).
  - exact (valid_Remove b count IH Hc).
  - exact (valid_Push b v b' IH HP).
  - exact (valid_SetCapacity b capacity b' IH Hi Hc HS).
  - exact IH.
Qed.

(** *** Reading after a write *)

Lemma mod_shift_neq (a d n : Z) : 0 < d < n -> (a + d) mod n <> a mod n.
Proof.
  intros Hd Heq.
  assert (n <> 0) as Hn by lia.
  pose proof (Z.div_mod a n Hn) as H1.
  pose proof (Z.div_mod (a + d) n Hn) as H2.
  rewrite Heq in H2.
  assert (d = n * ((a + d) / n - a / n)) as Hd' by lia.
  destruct (Z.le_gt_cases ((a + d) / n - a / n) 0); nia.
Qed.

(** The slot of offset [i] when [0 <= i < size]. *)
Lemma slot_small b i :
  0 <= i < size b -> slot b i = Z.to_nat ((head b - i) mod cap b).
Proof.
  intros H. unfold slot. rewrite (Z.mod_small i (size b)) by lia.
  reflexivity.
Qed.

(** A write at the slot after the head leaves the values that are
    fewer than [cap b - 1] slots behind the head where they are. *)
Lemma nth_after_write b v (k : Z) :
  valid b -> 0 < cap b -> 0 <= k < cap b - 1 ->
  nth (Z.to_nat ((head b - k) mod cap b))
      (overwrite (buf b) (Z.to_nat ((head b + 1) mod cap b)) [v]) nil =
  nth (Z.to_nat ((head b - k) mod cap b)) (buf b) nil.
Proof.
  intros Hv Hpos Hk.
  pose proof (Z.mod_pos_bound (head b + 1) (cap b) Hpos) as Hn.
  pose proof (Z.mod_pos_bound (head b - k) (cap b) Hpos) as Hs.
  pose proof (mod_shift_neq (head b - k) (k + 1) (cap b)) as Hneq.
  replace (head b - k + (k + 1)) with (head b + 1) in Hneq by lia.
  rewrite nth_overwrite by (unfold len in *; simpl; lia).
  simpl length.
  destruct (Nat.leb_spec (Z.to_nat ((head b + 1) mod cap b))
              (Z.to_nat ((head b - k) mod cap b)));
    destruct (Nat.ltb_spec (Z.to_nat ((head b - k) mod cap b))
                (Z.to_nat ((head b + 1) mod cap b) + 1));
    simpl; try reflexivity.
  exfalso. apply Hneq; lia.
Qed.

Lemma nth_written b v :
  0 < cap b ->
  nth (Z.to_nat ((head b + 1) mod cap b))
      (overwrite (buf b) (Z.to_nat ((head b + 1) mod cap b)) [v]) nil = v.
Proof.
  intros Hpos.
  pose proof (Z.mod_pos_bound (head b + 1) (cap b) Hpos) as Hn.
  rewrite nth_overwrite by (unfold len in *; simpl; lia).
  simpl length.
  destruct (Nat.leb_spec (Z.to_nat ((head b + 1) mod cap b))
              (Z.to_nat ((head b + 1) mod cap b))); [|lia].
  destruct (Nat.ltb_spec (Z.to_nat ((head b + 1) mod cap b))
              (Z.to_nat ((head b + 1) mod cap b) + 1)); [|lia].
  simpl. rewrite Nat.sub_diag. reflexivity.
Qed.

(** Reading a ring whose last operation wrote [v] at the slot after
    the head of [b] and made that slot the head. *)
Lemma Get_after_write b v (sz : Z) :
  valid b -> 0 < sz <= cap b ->
  let b' := {| head := (head b + 1) mod cap b; size := sz;
               buf := overwrite (buf b)
                        (Z.to_nat ((head b + 1) mod cap b)) [v] |} in
  valid b' /\
  Get nil box b' 0 = Done (v, None) /\
  forall k, 0 <= k < cap b - 1 -> k + 1 < sz ->
    Get nil box b' (k + 1) =
    Done (nth (Z.to_nat ((head b - k) mod cap b)) (buf b) nil, None).
Proof.
  intros Hv Hsz b'. pose proof Hv as [Hc Hs].
  assert (0 < cap b) as Hpos by lia.
  pose proof (Z.mod_pos_bound (head b + 1) (cap b) Hpos) as Hn.
  assert (cap b' = cap b) as Hcap by (apply cap_overwrite_one; lia).
  assert (valid b') as Hv'.
  { unfold valid. rewrite Hcap. simpl. split; [assumption|]. right. lia. }
  split; [assumption|]. split.
  - rewrite Get_slot by (assumption || (simpl; lia) || int_lia).
    rewrite slot_small by (simpl; lia). rewrite Hcap.
    unfold b'. cbn [head buf].
    rewrite Z.sub_0_r, Z.mod_mod by lia.
    rewrite nth_written by assumption. reflexivity.
  - intros k Hk Hk1.
    rewrite Get_slot by (assumption || (simpl; lia) || int_lia).
    rewrite slot_small by (simpl; lia). rewrite Hcap.
    unfold b'. cbn [head buf].
    rewrite Zminus_mod_idemp_l.
    replace (head b + 1 - (k + 1)) with (head b - k) by lia.
    rewrite nth_after_write by assumption. reflexivity.
Qed.

Lemma Get_live b i :
  valid b -> 0 <= i < size b ->
  Get nil box b i =
  Done (nth (Z.to_nat ((head b - i) mod cap b)) (buf b) nil, None).
Proof.
  intros Hv Hi. pose proof Hv as [Hc Hs].
  rewrite Get_slot by (assumption || lia || int_lia).
  rewrite slot_small by assumption. reflexivity.
Qed.

(** ** The contract of the package *)

(** C10. Every state reachable from [New] through [Add], [AddAll],
    [Remove], [Push], [SetCapacity] and [Get] has
    [0 <= size <= len(buf)], has [size == 0] exactly when [head == -1],
    and has [0 <= head < len(buf)] when [size > 0]. *)
Theorem reachable_invariant b :
  reachable nil box b ->
  0 <= size b <= len (buf b) /\
  (size b = 0 <-> head b = -1) /\
  (size b > 0 -> 0 <= head b < len (buf b)).
Proof.
  intros Hr. pose proof (len_nonneg (buf b)).
  destruct (reachable_valid b Hr) as [_ [[H0 Hh]|[Hs Hh]]]; lia.
Qed.

(** C1, at the input where it fails.  On the empty ring made by
    [New(5)], [SetCapacity(10)] does not complete: it panics on the
    slice expression [b.buf[tail:]] with [tail == -1]. *)
Theorem SetCapacity_empty_ring_panics :
  New nil 5 = Done {| head := -1; size := 0; buf := repeat nil 5 |} /\
  SetCapacity nil {| head := -1; size := 0; buf := repeat nil 5 |} 10
  = Panic SliceBounds.
Proof. split; reflexivity. Qed.

(** C5. [AddAll] is all-or-nothing: when [size + len(values)] exceeds
    the capacity it returns [FullError] and the ring it leaves is the
    ring it was given; [New(3)] then [AddAll(0,1,2,3)] fails with
    [FullError] and leaves [Size() == 0]. *)
Theorem AddAll_all_or_nothing :
  (forall b values,
     reachable nil box b -> len values <= max_len ->
     size b + len values > len (buf b) ->
     AddAll b values = Done (b, Some FullError)) /\
  (exists b0,
     New nil 3 = Done b0 /\
     AddAll b0 (map box [0; 1; 2; 3]) = Done (b0, Some FullError) /\
     Size b0 = 0).
Proof.
  split.
  - intros b values Hr Hmax Hfull. unfold AddAll.
    rewrite AddAll_spans_full by (auto using reachable_valid).
    reflexivity.
  - exists {| head := -1; size := 0; buf := repeat nil 3 |}.
    repeat split; vm_compute; reflexivity.
Qed.

(** C6. When the values fit, every round of the copy loop of [AddAll]
    copies at least one value: the call completes without error, and
    no round has [n == 0], so [panic(FullError)] is not executed. *)
Theorem AddAll_always_progresses b values :
  reachable nil box b -> size b + len values <= len (buf b) ->
  exists b' spans,
    AddAll_spans b values = Done (b', None, spans) /\
    Forall (fun s : span => 1 <= snd s) spans /\
    AddAll b values = Done (b', None).
Proof.
  intros Hr Hroom. pose proof (reachable_valid b Hr) as Hv.
  assert (len values <= max_len) as Hmax
    by (destruct Hv as [Hc Hs]; int_lia).
  destruct (AddAll_spans_room b values Hv Hmax Hroom)
    as (b' & spans & Hspans & _ & _ & _ & _ & _ & Hall).
  exists b', spans. split; [assumption|]. split.
  - eapply Forall_impl; [|exact Hall]. intros s Hs. apply Hs.
  - unfold AddAll. rewrite Hspans. reflexivity.
Qed.

(** C4. When the values fit, [AddAll] completes with the state that
    calling [Add] on each value in turn produces: the same [Size()],
    the same [Get(i)] for every [i], in fact the same ring; and it
    writes in at most two copies, each into a run of slots of the
    buffer. *)
Theorem AddAll_is_repeated_Add b values :
  reachable nil box b -> size b + len values <= len (buf b) ->
  exists b1 b2 spans,
    AddAll_spans b values = Done (b1, None, spans) /\
    AddAll b values = Done (b1, None) /\
    AddEach b values = Done (b2, None) /\
    Size b1 = Size b2 /\ Size b1 = size b + len values /\
    (forall i, Get nil box b1 i = Get nil box b2 i) /\
    b1 = b2 /\
    (length spans <= 2)%nat /\
    Forall (fun s : span => 0 <= fst s /\ fst s + snd s <= len (buf b))
           spans.
Proof.
  intros Hr Hroom. pose proof (reachable_valid b Hr) as Hv.
  assert (len values <= max_len) as Hmax
    by (destruct Hv as [Hc Hs]; int_lia).
  destruct (AddAll_spans_room b values Hv Hmax Hroom)
    as (b' & spans & Hspans & Heach & _ & Hsize & _ & Htwo & Hall).
  exists b', b', spans.
  split; [assumption|].
  split; [unfold AddAll; rewrite Hspans; reflexivity|].
  split; [assumption|]. split; [reflexivity|].
  split; [assumption|]. split; [reflexivity|]. split; [reflexivity|].
  split; [assumption|].
  eapply Forall_impl; [|exact Hall]. intros s Hs. split; apply Hs.
Qed.

(** C7. [Add] returns [FullError] and changes nothing exactly when
    [size == capacity]; otherwise it moves the head one slot forward
    modulo the capacity, stores the value there, adds one to the size
    and keeps every value of the ring, one offset further from the
    head.  After [New(10)] and ten calls [Add(i)], [i] from 0 to 9,
    [Size() == Capacity() == 10], [Get(0) == 9] and [Get(9) == 0]. *)
Theorem Add_contract :
  (forall b v,
     reachable nil box b ->
     (size b = len (buf b) -> Add b v = Done (b, Some FullError)) /\
     (size b <> len (buf b) ->
      exists b',
        Add b v = Done (b', None) /\
        Next 1 (head b) (len (buf b)) = Done (head b') /\
        head b' = (head b + 1) mod len (buf b) /\
        load (buf b') (head b') nil = Done v /\
        size b' = size b + 1 /\
        Capacity b' = Capacity b /\
        Get nil box b' 0 = Done (v, None) /\
        forall i, 0 <= i < size b ->
          Get nil box b' (i + 1) = Get nil box b i)) /\
  (exists b0 b10,
     New nil 10 = Done b0 /\
     AddEach b0 (map box [0; 1; 2; 3; 4; 5; 6; 7; 8; 9])
     = Done (b10, None) /\
     Size b10 = 10 /\ Capacity b10 = 10 /\
     Get nil box b10 0 = Done (box 9, None) /\
     Get nil box b10 9 = Done (box 0, None)).
Proof.
  split.
  - intros b v Hr. pose proof (reachable_valid b Hr) as Hv.
    pose proof Hv as [Hc Hs]. split.
    + intros Hfull. apply Add_full. lia.
    + intros Hne. pose proof (len_nonneg (buf b)) as Hl.
      assert (size b < cap b) as Hlt by lia.
      assert (0 < cap b) as Hpos by lia.
      pose proof (Z.mod_pos_bound (head b + 1) (cap b) Hpos) as Hn.
      destruct (Get_after_write b v (size b + 1) Hv) as (Hv' & Hget0 & Hget);
        [lia|].
      eexists. split; [apply Add_room; assumption|].
      cbn [head size buf]. unfold Capacity. cbn [buf].
      split; [apply Next_one; assumption|].
      split; [reflexivity|].
      split.
      { rewrite load_ok by (rewrite cap_overwrite_one; lia).
        rewrite nth_written by assumption. reflexivity. }
      split; [reflexivity|].
      split; [apply cap_overwrite_one; lia|].
      split; [exact Hget0|].
      intros i Hi. rewrite Hget by lia.
      rewrite Get_live by assumption. reflexivity.
  - exists {| head := -1; size := 0; buf := repeat nil 10 |},
      {| head := 9; size := 10;
         buf := map box [0; 1; 2; 3; 4; 5; 6; 7; 8; 9] |}.
    repeat split; vm_compute; reflexivity.
Qed.

(** C8. [Push] never changes the size.  With capacity 0 or size 0 it
    changes nothing.  Otherwise it moves the head one slot forward and
    stores the value there: [Get(0)] is the value, [Get(i)] for
    [1 <= i < size] is what [Get(i-1)] was, and when the ring was full
    the slot written is the one that held the oldest value. *)
Theorem Push_contract b value :
  reachable nil box b ->
  exists b',
    Push b value = Done b' /\
    size b' = size b /\
    (len (buf b) = 0 \/ size b = 0 -> b' = b) /\
    (len (buf b) <> 0 -> size b <> 0 ->
     Next 1 (head b) (len (buf b)) = Done (head b') /\
     head b' = (head b + 1) mod len (buf b) /\
     load (buf b') (head b') nil = Done value /\
     Capacity b' = Capacity b /\
     Get nil box b' 0 = Done (value, None) /\
     (forall i, 1 <= i < size b ->
        Get nil box b' i = Get nil box b (i - 1)) /\
     (size b = len (buf b) ->
      Index (-1) (head b) (size b) (len (buf b)) = Done (head b'))).
Proof.
  intros Hr. pose proof (reachable_valid b Hr) as Hv.
  pose proof Hv as [Hc Hs].
  destruct (Z.eq_dec (size b) 0) as [H0|Hn0].
  - exists b. split; [apply Push_noop; right; assumption|].
    split; [reflexivity|]. split; [reflexivity|]. intros _ Hne. contradiction.
  - assert (0 < size b <= cap b /\ 0 <= head b < cap b) as [Hsz Hh] by lia.
    assert (0 < cap b) as Hpos by lia.
    pose proof (Z.mod_pos_bound (head b + 1) (cap b) Hpos) as Hn.
    destruct (Get_after_write b value (size b) Hv) as (Hv' & Hget0 & Hget);
      [lia|].
    eexists. split; [apply Push_write; assumption || lia|].
    cbn [head size buf]. unfold Capacity. cbn [buf].
    split; [reflexivity|].
    split; [intros [Hz|Hz]; lia|].
    intros _ _.
    split; [apply Next_one; assumption|].
    split; [reflexivity|].
    split.
    { rewrite load_ok by (rewrite cap_overwrite_one; lia).
      rewrite nth_written by assumption. reflexivity. }
    split; [apply cap_overwrite_one; lia|].
    split; [exact Hget0|].
    split.
    + intros i Hi. replace i with (i - 1 + 1) at 1 by lia.
      rewrite Hget by lia. rewrite Get_live by (assumption || lia).
      reflexivity.
    + intros Hfull. rewrite Index_tail by (assumption || lia).
      f_equal. rewrite Hfull.
      replace (head b - (cap b - 1)) with (head b + 1 + (-1) * cap b) by lia.
      apply Z.mod_add. lia.
Qed.

(** C9. [Remove] is a total function.  With [count <= 0] it changes
    nothing; with [count >= size] it empties the ring ([size == 0],
    [head == -1]); otherwise the size shrinks by [count], head and
    buffer stay, and [Get(i)] is unchanged for [0 <= i < size - count].
    [New(5)], [AddAll(1,2,3)], [Remove(2)] leaves [Size() == 1] and
    [Get(-1) == 3]. *)
Theorem Remove_contract :
  (forall b count,
     reachable nil box b -> in_int count ->
     buf (Remove b count) = buf b /\
     (count <= 0 -> Remove b count = b) /\
     (count >= size b ->
      size (Remove b count) = 0 /\ head (Remove b count) = -1) /\
     (0 < count < size b ->
      size (Remove b count) = size b - count /\
      head (Remove b count) = head b /\
      forall i, 0 <= i < size b - count ->
        Get nil box (Remove b count) i = Get nil box b i)) /\
  (exists b0 b3,
     New nil 5 = Done b0 /\
     AddAll b0 (map box [1; 2; 3]) = Done (b3, None) /\
     Size (Remove b3 2) = 1 /\
     Get nil box (Remove b3 2) (-1) = Done (box 3, None)).
Proof.
  split.
  - intros b count Hr Hi. pose proof (reachable_valid b Hr) as Hv.
    pose proof (valid_Remove b count Hv Hi) as Hv'.
    pose proof Hv as [Hc Hs].
    rewrite Remove_cases in * by assumption.
    destruct (Z.leb_spec count 0) as [Hle|Hgt].
    + split; [reflexivity|]. split; [reflexivity|]. split; [|lia].
      intros Hge. lia.
    + destruct (Z.leb_spec (size b) count) as [Hall|Hsome]; cbn [head size buf].
      * split; [reflexivity|]. split; [lia|]. split; [|lia].
        intros _. split; reflexivity.
      * split; [reflexivity|]. split; [lia|]. split; [lia|].
        intros _. split; [reflexivity|]. split; [reflexivity|].
        intros i Hrange.
        rewrite (Get_live _ i Hv') by (cbn [size]; lia).
        rewrite (Get_live b i Hv) by lia. reflexivity.
  - exists {| head := -1; size := 0; buf := repeat nil 5 |},
      {| head := 2; size := 3; buf := map box [1; 2; 3] ++ [nil; nil] |}.
    repeat split; vm_compute; reflexivity.
Qed.

(** C2, as the code has it.  On a reachable ring that is not empty, or
    whose capacity already is the clamped [newCap], and for a [newCap]
    that [make] accepts (at most [max_alloc]), [SetCapacity] completes;
    the size is unchanged, [Get(i)] is unchanged for every [i], and
    [Capacity()] is [newCap], or the size when [newCap] is less.  When
    the capacity changes, [head == size - 1] afterwards; when it does
    not, the call changes nothing, the head included. *)
Theorem SetCapacity_preserves b newCap :
  reachable nil box b -> in_int newCap -> newCap <= max_alloc ->
  0 < size b \/ Z.max newCap (size b) = len (buf b) ->
  exists b',
    SetCapacity nil b newCap = Done b' /\
    Size b' = Size b /\
    Capacity b' = Z.max newCap (Size b) /\
    (forall i, in_int i -> Get nil box b' i = Get nil box b i) /\
    (Capacity b' <> Capacity b -> head b' = Size b - 1) /\
    (Capacity b' = Capacity b -> b' = b).
Proof.
  intros Hr Hi Hmax Hcase. pose proof (reachable_valid b Hr) as Hv.
  pose proof Hv as [Hc Hs]. unfold Size, Capacity.
  destruct (Z.eq_dec (Z.max newCap (size b)) (cap b)) as [Heq|Hne].
  - exists b. split; [apply SetCapacity_noop; assumption|].
    split; [reflexivity|]. split; [congruence|].
    split; [reflexivity|]. split; [congruence|]. reflexivity.
  - assert (0 < size b) as Hpos by (destruct Hcase; [assumption|contradiction]).
    assert (0 < size b <= cap b /\ 0 <= head b < cap b) as [Hsz Hh] by lia.
    destruct (SetCapacity_move b newCap Hv Hpos Hmax Hne)
      as (nbuf & Hset & Hlen & Hnth).
    eexists. split; [exact Hset|]. cbn [head size buf].
    split; [reflexivity|]. split; [assumption|].
    split; [|split; [reflexivity|congruence]].
    intros i Hii.
    pose proof (Z.mod_pos_bound i (size b) Hpos) as Hm.
    rewrite Get_at_slot by (cbn [head size buf]; rewrite ?Hlen; int_lia).
    rewrite Get_slot by assumption.
    unfold slot. cbn [head size buf]. rewrite Hlen.
    rewrite (Z.mod_small (size b - 1 - i mod size b)) by lia.
    rewrite Hnth by assumption. reflexivity.
Qed.
(** ** More of the contract *)

Lemma Get_same_fold b i j :
  valid b -> 0 < size b -> in_int i -> in_int j ->
  i mod size b = j mod size b ->
  Get nil box b i = Get nil box b j.
Proof.
  intros Hv Hpos Hi Hj Heq.
  rewrite !Get_slot by assumption. unfold slot. rewrite Heq. reflexivity.
Qed.

Lemma len_cons (v : V) values : len (v :: values) = 1 + len values.
Proof. unfold len. simpl length. lia. Qed.

(** Reading after adding values one by one: the values come back newest
    first, then the values the ring held. *)
Lemma AddEach_Get values : forall b,
  valid b -> size b + len values <= cap b ->
  exists b',
    AddEach b values = Done (b', None) /\
    valid b' /\ size b' = size b + len values /\
    (forall i, 0 <= i < len values ->
       Get nil box b' i =
       Done (nth (Z.to_nat (len values - 1 - i)) values nil, None)) /\
    (forall i, 0 <= i < size b ->
       Get nil box b' (len values + i) = Get nil box b i).
Proof.
  induction values as [|v values IH]; intros b Hv Hroom.
  - exists b. split; [reflexivity|]. split; [assumption|].
    unfold len. simpl length. split; [lia|]. split; [intros i Hi; lia|].
    intros i Hi. reflexivity.
  - rewrite len_cons in *. pose proof (len_nonneg values) as Hl.
    pose proof Hv as [Hc Hs].
    destruct (Get_after_write b v (size b + 1) Hv) as (Hv1 & Hget0 & Hget);
      [lia|].
    set (b1 := {| head := (head b + 1) mod cap b; size := size b + 1;
                  buf := overwrite (buf b)
                           (Z.to_nat ((head b + 1) mod cap b)) [v] |}) in *.
    assert (0 < cap b) as Hpos by lia.
    pose proof (Z.mod_pos_bound (head b + 1) (cap b) Hpos) as Hn.
    assert (cap b1 = cap b) as Hcap1 by (apply cap_overwrite_one; lia).
    destruct (IH b1 Hv1) as (b' & Heach & Hv' & Hsize & Hnew & Hold).
    { rewrite Hcap1. cbn [size b1]. lia. }
    exists b'. split.
    { simpl AddEach. rewrite Add_room by (assumption || lia).
      cbn [bind snd fst]. exact Heach. }
    split; [assumption|]. split; [rewrite Hsize; cbn [size b1]; lia|].
    split.
    + intros i Hi. destruct (Z.eq_dec i (len values)) as [->|Hne].
      * replace (len values) with (len values + 0) at 1 by lia.
        rewrite Hold by (cbn [size b1]; lia). rewrite Hget0.
        replace (Z.to_nat (1 + len values - 1 - len values)) with O by lia.
        reflexivity.
      * rewrite Hnew by lia.
        replace (Z.to_nat (1 + len values - 1 - i))
          with (S (Z.to_nat (len values - 1 - i))) by lia.
        reflexivity.
    + intros i Hi.
      replace (1 + len values + i) with (len values + (i + 1)) by lia.
      rewrite Hold by (cbn [size b1]; lia).
      rewrite Hget by lia. rewrite Get_live by assumption. reflexivity.
Qed.

(** X5. [Get] completes on every reachable ring, for every offset: with
    [EmptyError] and the value [0] exactly when the ring is empty,
    otherwise with a value of the buffer and no error. *)
Theorem Get_completes b i :
  reachable nil box b -> in_int i ->
  exists v e,
    Get nil box b i = Done (v, e) /\
    (size b = 0 -> e = Some EmptyError /\ v = box 0) /\
    (size b <> 0 -> e = None /\ In v (buf b)).
Proof.
  intros Hr Hi. pose proof (reachable_valid b Hr) as Hv.
  pose proof Hv as [Hc Hs].
  destruct (Z.eq_dec (size b) 0) as [H0|Hn0].
  - exists (box 0), (Some EmptyError).
    split; [apply Get_empty; assumption|]. split; [auto|contradiction].
  - assert (0 < size b <= cap b /\ 0 <= head b < cap b) as [Hsz Hh] by lia.
    exists (nth (slot b i) (buf b) nil), None.
    split; [apply Get_slot; assumption || lia|]. split; [contradiction|].
    intros _. split; [reflexivity|]. apply nth_In. unfold slot.
    pose proof (Z.mod_pos_bound (head b - i mod size b) (cap b)).
    unfold len in *. lia.
Qed.

(** X6. [Get] folds its offset modulo the size: two offsets with the
    same residue read the same value; so [Get(-1)] is [Get(size-1)], the
    oldest value, and [Get(size)] is [Get(0)]. *)
Theorem Get_periodic b i j :
  reachable nil box b -> in_int i -> in_int j -> size b <> 0 ->
  i mod size b = j mod size b ->
  Get nil box b i = Get nil box b j.
Proof.
  intros Hr Hi Hj Hn0 Heq. pose proof (reachable_valid b Hr) as Hv.
  pose proof Hv as [Hc Hs].
  apply Get_same_fold; assumption || lia.
Qed.

(** X7. After [AddAll] of values that fit, [Get(i)] for [i] below the
    number of values is the value added [i] places before the last, and
    the values the ring held are behind them, in their order. *)
Theorem AddAll_then_Get b values :
  reachable nil box b -> size b + len values <= len (buf b) ->
  exists b',
    AddAll b values = Done (b', None) /\
    Size b' = Size b + len values /\
    (forall i, 0 <= i < len values ->
       Get nil box b' i =
       Done (nth (Z.to_nat (len values - 1 - i)) values nil, None)) /\
    (forall i, 0 <= i < Size b ->
       Get nil box b' (len values + i) = Get nil box b i).
Proof.
  intros Hr Hroom. pose proof (reachable_valid b Hr) as Hv.
  assert (len values <= max_len) as Hmax
    by (destruct Hv as [Hc Hs]; int_lia).
  destruct (AddAll_spans_room b values Hv Hmax Hroom)
    as (b' & spans & Hspans & Heach & _).
  destruct (AddEach_Get values b Hv Hroom)
    as (b'' & Heach' & _ & Hsize & Hnew & Hold).
  rewrite Heach in Heach'. injection Heach' as <-.
  exists b'. split; [unfold AddAll; rewrite Hspans; reflexivity|].
  unfold Size. auto.
Qed.

(** X8. [Add], [AddAll], [Remove] and [Push] never change the capacity:
    only [SetCapacity] does. *)
Theorem capacity_kept b :
  reachable nil box b ->
  (forall v b' e, Add b v = Done (b', e) -> Capacity b' = Capacity b) /\
  (forall values b' e,
     len values <= max_len -> AddAll b values = Done (b', e) ->
     Capacity b' = Capacity b) /\
  (forall count, Capacity (Remove b count) = Capacity b) /\
  (forall v b', Push b v = Done b' -> Capacity b' = Capacity b).
Proof.
  intros Hr. pose proof (reachable_valid b Hr) as Hv.
  pose proof Hv as [Hc Hs]. pose proof (len_nonneg (buf b)) as Hl.
  unfold Capacity. split; [|split; [|split]].
  - intros v b' e.
    destruct (Z.lt_ge_cases (size b) (cap b)) as [Hlt|Hge].
    + rewrite Add_room by assumption. intros [= <- _]. cbn [buf].
      apply cap_overwrite_one. apply Z.mod_pos_bound. lia.
    + rewrite Add_full by lia. intros [= <- _]. reflexivity.
  - intros values b' e Hmax. unfold AddAll.
    destruct (Z.le_gt_cases (size b + len values) (cap b)) as [Hroom|Hfull].
    + destruct (AddAll_spans_room b values Hv Hmax Hroom)
        as (b1 & spans & -> & _ & _ & _ & Hcap & _).
      simpl. intros [= <- _]. assumption.
    + rewrite AddAll_spans_full by (assumption || lia).
      simpl. intros [= <- _]. reflexivity.
  - intros count. unfold Remove.
    destruct (count <=? 0); [reflexivity|].
    destruct (wrap (size b - count) <=? 0); reflexivity.
  - intros v b'.
    destruct (Z.eq_dec (size b) 0) as [H0|Hn0].
    + rewrite Push_noop by (right; assumption). intros [= <-]. reflexivity.
    + rewrite Push_write by (assumption || lia). intros [= <-]. cbn [buf].
      apply cap_overwrite_one. apply Z.mod_pos_bound. lia.
Qed.

(** X10. Removing [m] values then [n] values is removing [m + n]
    values. *)
Theorem Remove_Remove b m n :
  reachable nil box b -> 0 <= m -> 0 <= n -> m + n <= max_int ->
  Remove (Remove b m) n = Remove b (m + n).
Proof.
  intros Hr Hm Hn Hsum. pose proof (reachable_valid b Hr) as Hv.
  assert (in_int m) as Him by int_lia.
  assert (in_int n) as Hin by int_lia.
  assert (in_int (m + n)) as Himn by int_lia.
  pose proof (valid_Remove b m Hv Him) as Hv1.
  rewrite (Remove_cases (Remove b m) n Hv1 Hin).
  rewrite (Remove_cases b (m + n) Hv Himn).
  rewrite (Remove_cases b m Hv Him).
  destruct Hv as [Hc Hs].
  destruct (Z.leb_spec m 0) as [Hm0|Hmpos].
  - assert (m = 0) as -> by lia. rewrite Z.add_0_l. reflexivity.
  - destruct (Z.leb_spec (size b) m) as [Hall|Hsome]; cbn [head size buf].
    + destruct (Z.leb_spec (m + n) 0); [lia|].
      destruct (Z.leb_spec (size b) (m + n)); [|lia].
      destruct (Z.leb_spec n 0); [reflexivity|].
      destruct (Z.leb_spec 0 n); [reflexivity|lia].
    + destruct (Z.leb_spec (m + n) 0); [lia|].
      destruct (Z.leb_spec n 0) as [Hn0|Hnpos].
      * assert (n = 0) as -> by lia. rewrite Z.add_0_r.
        destruct (Z.leb_spec (size b) m); [lia|reflexivity].
      * destruct (Z.leb_spec (size b - m) n), (Z.leb_spec (size b) (m + n));
          try lia; try reflexivity.
        f_equal. lia.
Qed.

(** X9. On a ring that is not empty, [Push] does what [Remove(1)] then
    [Add] do: the same size and the same [Get(i)] for every [i]; with two
    values or more, the same ring. *)
Theorem Push_is_Remove_then_Add b v :
  reachable nil box b -> size b <> 0 ->
  exists b1 b2,
    Push b v = Done b1 /\
    Add (Remove b 1) v = Done (b2, None) /\
    Size b1 = Size b2 /\
    (forall i, in_int i -> Get nil box b1 i = Get nil box b2 i) /\
    (2 <= size b -> b1 = b2).
Proof.
  intros Hr Hn0. pose proof (reachable_valid b Hr) as Hv.
  pose proof Hv as [Hc Hs].
  assert (0 < size b <= cap b /\ 0 <= head b < cap b) as [Hsz Hh] by lia.
  assert (in_int 1) as H1 by int_lia.
  pose proof (valid_Remove b 1 Hv H1) as Hvr.
  destruct (Get_after_write b v (size b) Hv) as (Hv1 & Hget1 & _); [lia|].
  rewrite Push_write by (assumption || lia).
  destruct (Z.le_gt_cases 2 (size b)) as [Htwo|Hone].
  - (* Remove keeps the head *)
    assert (Remove b 1 = {| head := head b; size := size b - 1;
                            buf := buf b |}) as Hrem.
    { rewrite Remove_cases by assumption.
      destruct (Z.leb_spec 1 0); [lia|].
      destruct (Z.leb_spec (size b) 1); [lia|reflexivity]. }
    rewrite Hrem in *.
    rewrite Add_room by (assumption || (cbn [size buf]; lia)).
    cbn [head size buf]. replace (size b - 1 + 1) with (size b) by lia.
    eexists. eexists. split; [reflexivity|]. split; [reflexivity|].
    split; [reflexivity|]. split; reflexivity.
  - (* one value: Remove empties the ring and Add starts at slot 0 *)
    assert (size b = 1) as Hs1 by lia.
    assert (Remove b 1 = {| head := -1; size := 0; buf := buf b |}) as Hrem.
    { rewrite Remove_cases by assumption.
      destruct (Z.leb_spec 1 0); [lia|].
      destruct (Z.leb_spec (size b) 1); [reflexivity|lia]. }
    rewrite Hrem in *.
    destruct (Get_after_write _ v 1 Hvr) as (Hv2 & Hget2 & _);
      [cbn [buf]; lia|].
    rewrite Add_room by (assumption || (cbn [size buf]; lia)).
    cbn [head size buf] in *. rewrite Hs1 in *.
    eexists. eexists. split; [reflexivity|]. split; [reflexivity|].
    split; [reflexivity|]. split; [|intros; lia].
    intros i Hi.
    rewrite (Get_same_fold _ i 0) by
      (assumption || (cbn [size]; lia) || int_lia
       || (cbn [size]; rewrite !Z.mod_1_r; reflexivity)).
    rewrite Hget1. symmetry.
    rewrite (Get_same_fold _ i 0) by
      (assumption || (cbn [size]; lia) || int_lia
       || (cbn [size]; rewrite !Z.mod_1_r; reflexivity)).
    exact Hget2.
Qed.

(** X11. A ring of capacity 0 is empty and stays as it is: [Add] and
    [AddAll] of values return [FullError], [Push] and [Remove] change
    nothing, [Get] returns [EmptyError], and none of them divides by the
    capacity.  [SetCapacity] to at most 0 changes nothing; to more than
    0 it panics: on a slice expression when [make] accepts the capacity,
    in [make] when it does not. *)
Theorem zero_capacity_ring b :
  reachable nil box b -> Capacity b = 0 ->
  size b = 0 /\
  (forall v, Add b v = Done (b, Some FullError)) /\
  (forall values, values <> [] -> len values <= max_len ->
     AddAll b values = Done (b, Some FullError)) /\
  AddAll b [] = Done (b, None) /\
  (forall v, Push b v = Done b) /\
  (forall count, in_int count -> Remove b count = b) /\
  (forall i, Get nil box b i = Done (box 0, Some EmptyError)) /\
  (forall c, c <= 0 -> SetCapacity nil b c = Done b) /\
  (forall c, 0 < c -> c <= max_alloc ->
     SetCapacity nil b c = Panic SliceBounds) /\
  (forall c, max_alloc < c -> SetCapacity nil b c = Panic MakeLen).
Proof.
  intros Hr Hcap. pose proof (reachable_valid b Hr) as Hv.
  pose proof Hv as [Hc Hs]. unfold Capacity in Hcap.
  assert (size b = 0 /\ head b = -1) as [H0 Hh] by lia.
  split; [assumption|].
  split; [intros v; apply Add_full; lia|].
  split.
  { intros values Hne Hmax. unfold AddAll.
    rewrite AddAll_spans_full; [reflexivity|assumption|assumption|].
    destruct values; [congruence|]. rewrite len_cons.
    pose proof (len_nonneg values). lia. }
  split.
  { unfold AddAll, AddAll_spans. rewrite H0, Hcap. reflexivity. }
  split; [intros v; apply Push_noop; left; assumption|].
  split.
  { intros count Hi. rewrite Remove_cases by assumption.
    destruct (Z.leb_spec count 0); [reflexivity|].
    destruct (Z.leb_spec (size b) count); [|lia].
    destruct b as [h s0 bf]. cbn [head size buf] in *. subst. reflexivity. }
  split; [intros i; apply Get_empty; assumption|].
  split; [intros c Hle; apply SetCapacity_noop; lia|].
  split.
  - intros c Hpos Hmax. apply SetCapacity_empty; lia.
  - intros c Hlong. apply SetCapacity_too_long; assumption.
Qed.

(** X12. [SetCapacity] to the current capacity changes nothing, on every
    reachable ring; and a call of [SetCapacity] that completes can be
    repeated without effect. *)
Theorem SetCapacity_idempotent b :
  reachable nil box b ->
  SetCapacity nil b (Capacity b) = Done b /\
  (forall c b',
     in_int c -> SetCapacity nil b c = Done b' ->
     SetCapacity nil b' c = Done b').
Proof.
  intros Hr. pose proof (reachable_valid b Hr) as Hv.
  pose proof Hv as [Hc Hs]. pose proof (len_nonneg (buf b)) as Hl.
  split.
  - apply SetCapacity_noop. unfold Capacity. lia.
  - intros c b' Hi.
    destruct (Z.le_gt_cases c max_alloc) as [Hmax|Hlong];
      [|rewrite SetCapacity_too_long by assumption; discriminate].
    destruct (Z.eq_dec (Z.max c (size b)) (cap b)) as [Heq|Hne].
    + rewrite SetCapacity_noop by assumption. intros [= <-].
      apply SetCapacity_noop. assumption.
    + destruct Hs as [[H0 Hh]|[Hsz Hh]].
      * rewrite SetCapacity_empty
          by (assumption || (rewrite <- H0; assumption)).
        discriminate.
      * destruct (SetCapacity_move b c Hv) as (nbuf & -> & Hlen & _);
          try assumption; try lia.
        intros [= <-]. apply SetCapacity_noop. cbn [size buf].
        symmetry. assumption.
Qed.

(** X13. On an empty reachable ring [SetCapacity] completes only when
    the capacity asked for, or 0 when it is negative, is the current
    capacity.  For every other capacity it panics: on a slice expression
    when [make] accepts the capacity (at most [max_alloc]), in [make]
    when it does not. *)
Theorem SetCapacity_on_empty b c :
  reachable nil box b -> size b = 0 ->
  (Z.max c 0 = Capacity b -> SetCapacity nil b c = Done b) /\
  (Z.max c 0 <> Capacity b -> c <= max_alloc ->
   SetCapacity nil b c = Panic SliceBounds) /\
  (max_alloc < c -> SetCapacity nil b c = Panic MakeLen).
Proof.
  intros Hr H0. pose proof (reachable_valid b Hr) as Hv.
  pose proof Hv as [Hc Hs]. unfold Capacity.
  assert (head b = -1) as Hh by lia.
  split; [|split].
  - intros Heq. apply SetCapacity_noop. rewrite H0. assumption.
  - intros Hne Hmax. apply SetCapacity_empty; assumption.
  - intros Hlong. apply SetCapacity_too_long; assumption.
Qed.

(** X14. [SetCapacity] to at most the size, on a ring that is not
    empty, leaves a full ring: the capacity is the size and [Add] returns
    [FullError]. *)
Theorem SetCapacity_to_fit b c :
  reachable nil box b -> size b <> 0 -> in_int c -> c <= size b ->
  exists b',
    SetCapacity nil b c = Done b' /\
    Capacity b' = Size b /\ Size b' = Size b /\
    forall v, Add b' v = Done (b', Some FullError).
Proof.
  intros Hr Hn0 Hi Hle. pose proof (reachable_valid b Hr) as Hv.
  pose proof Hv as [Hc Hs]. unfold Capacity, Size.
  assert (0 < size b) as Hpos by lia.
  destruct (Z.eq_dec (Z.max c (size b)) (cap b)) as [Heq|Hne].
  - exists b. split; [apply SetCapacity_noop; assumption|].
    split; [lia|]. split; [reflexivity|].
    intros v. apply Add_full. lia.
  - assert (c <= max_alloc) as Hmax by lia.
    destruct (SetCapacity_move b c Hv Hpos Hmax Hne)
      as (nbuf & Hset & Hlen & _).
    eexists. split; [exact Hset|]. cbn [size buf].
    split; [lia|]. split; [reflexivity|].
    intros v. apply Add_full. cbn [size buf]. lia.
Qed.

(** *** The comparison of the tests *)


Section Equals.
Context (eqb : V -> V -> bool).
Hypothesis eqb_eq : forall x y, eqb x y = true <-> x = y.

Lemma equals_loop_spec b c (fuel : nat) : forall i,
  valid b -> valid c -> size b = size c -> 0 <= i <= size b ->
  (Z.to_nat (size b - i) <= fuel)%nat ->
  exists r,
    equals_loop nil box eqb fuel b c i = Done r /\
    (r = true <->
     forall j, i <= j < size b -> Get nil box b j = Get nil box c j).
Proof.
  induction fuel as [|fuel IH]; intros i Hvb Hvc Hsize Hi Hfuel.
  - exists true. simpl. unfold Size.
    destruct (Z.ltb_spec i (size b)); [lia|].
    split; [reflexivity|]. split; [intros _ j Hj; lia|reflexivity].
  - simpl. unfold Size.
    destruct (Z.ltb_spec i (size b)) as [Hlt|Hge].
    + pose proof Hvb as [Hcb Hsb].
      rewrite (Get_live b i Hvb) by lia.
      rewrite (Get_live c i Hvc) by lia. cbn [bind snd fst].
      destruct (eqb _ _) eqn:Heq; cbn [negb].
      * rewrite wrap_small by int_lia.
        destruct (IH (i + 1) Hvb Hvc Hsize) as (r & Hloop & Hr); try lia.
        exists r. split; [exact Hloop|].
        apply eqb_eq in Heq. rewrite Hr. split.
        -- intros Hall j Hj. destruct (Z.eq_dec j i) as [->|Hne].
           ++ rewrite (Get_live b i Hvb), (Get_live c i Hvc) by lia.
              rewrite Heq. reflexivity.
           ++ apply Hall. lia.
        -- intros Hall j Hj. apply Hall. lia.
      * exists false. split; [reflexivity|].
        split; [discriminate|]. intros Hall. exfalso.
        specialize (Hall i ltac:(lia)).
        rewrite (Get_live b i Hvb), (Get_live c i Hvc) in Hall by lia.
        injection Hall as Hall. apply eqb_eq in Hall. congruence.
    + exists true. split; [reflexivity|].
      split; [intros _ j Hj; lia|reflexivity].
Qed.

Lemma equals_valid b c :
  valid b -> valid c ->
  exists r,
    equals nil box eqb b c = Done r /\
    (r = true <->
     Size b = Size c /\
     forall i, 0 <= i < Size b -> Get nil box b i = Get nil box c i).
Proof.
  intros Hvb Hvc. unfold equals, Size.
  destruct (Z.eqb_spec (size b) (size c)) as [Heq|Hne]; cbn [negb].
  - assert (0 <= size b) as Hs by (destruct Hvb as [_ ?]; lia).
    destruct (equals_loop_spec b c (Z.to_nat (size b)) 0 Hvb Hvc Heq)
      as (r & Hloop & Hr); try lia.
    exists r. split; [exact Hloop|]. rewrite Hr. tauto.
  - exists false. split; [reflexivity|].
    split; [discriminate|]. intros [Heq _]. contradiction.
Qed.

(** X15. [equals] completes on reachable rings, and returns true exactly
    when the sizes are the same and [Get(i)] is the same for every [i]
    below the size. *)
Theorem equals_same_content b c :
  reachable nil box b -> reachable nil box c ->
  exists r,
    equals nil box eqb b c = Done r /\
    (r = true <->
     Size b = Size c /\
     forall i, 0 <= i < Size b -> Get nil box b i = Get nil box c i).
Proof.
  intros Hb Hc. apply equals_valid; apply reachable_valid; assumption.
Qed.

End Equals.

End RingFacts.

(** C3. [Index] returns [-1] when the size is 0.  On a valid state, for
    every [int] offset, it folds the offset into [0, size) by remainder
    then adding the size, steps back from the head by the result, and
    folds that into [0, capacity).  With capacity 10, size 5 and head 5
    it maps 0, 1, 4, -1, -2, 5, -51 to 5, 4, 1, 1, 2, 5, 1. *)
Theorem Index_contract :
  (forall i head capacity, Index i head 0 capacity = Done (-1)) /\
  (forall i head size capacity,
     in_int i -> 0 <= head < capacity -> 0 < size <= capacity ->
     capacity <= max_int ->
     let r := if Z.rem i size <? 0 then Z.rem i size + size
              else Z.rem i size in
     let p := if head - r <? 0 then head - r + capacity else head - r in
     0 <= r < size /\ r = i mod size /\
     0 <= p < capacity /\ p = (head - r) mod capacity /\
     Index i head size capacity = Done p) /\
  (Index 0 5 5 10 = Done 5 /\ Index 1 5 5 10 = Done 4 /\
   Index 4 5 5 10 = Done 1 /\ Index (-1) 5 5 10 = Done 1 /\
   Index (-2) 5 5 10 = Done 2 /\ Index 5 5 5 10 = Done 5 /\
   Index (-51) 5 5 10 = Done 1).
Proof.
  split; [|split].
  - intros i head capacity. reflexivity.
  - intros i head size capacity Hi Hh Hs Hc r p.
    assert (r = i mod size) as Hr by (apply rem_fold; lia).
    pose proof (Z.mod_pos_bound i size (proj1 Hs)) as Hm.
    assert (p = (head - r) mod capacity) as Hp.
    { unfold p. destruct (Z.ltb_spec (head - r) 0).
      - apply Z.mod_unique with (q := -1); lia.
      - apply Z.mod_unique with (q := 0); lia. }
    pose proof (Z.mod_pos_bound (head - r) capacity) as Hpm.
    split; [lia|]. split; [assumption|]. split; [lia|].
    split; [assumption|].
    rewrite Index_mod by assumption. rewrite Hp, Hr. reflexivity.
  - repeat split.
Qed.

(** X1. [Next] with capacity 0 divides by zero.  With a positive
    capacity it is the modulo that is never negative, also when the sum
    is negative. *)
Theorem Next_modulo :
  (forall i latest, Next i latest 0 = Panic DivideByZero) /\
  (forall i latest capacity,
     0 < capacity <= max_int -> in_int (latest + i) ->
     exists n,
       Next i latest capacity = Done n /\
       0 <= n < capacity /\ n = (latest + i) mod capacity).
Proof.
  split.
  - intros i latest. reflexivity.
  - intros i latest capacity Hc Hs.
    exists ((latest + i) mod capacity).
    split; [apply Next_mod; assumption|].
    split; [apply Z.mod_pos_bound; lia|reflexivity].
Qed.

(** X2. Steps of [Next] add up: [j] slots after [i] slots is [i + j]
    slots, so the head that [AddAll] computes for one copy is the head
    that as many calls of [Add] reach. *)
Theorem Next_Next i j latest capacity :
  0 < capacity <= max_len -> -1 <= latest < capacity ->
  0 <= i <= max_len -> 0 <= j <= max_len ->
  exists n,
    Next i latest capacity = Done n /\
    Next j n capacity = Next (i + j) latest capacity.
Proof.
  intros Hc Hl Hi Hj.
  exists ((latest + i) mod capacity).
  pose proof (Z.mod_pos_bound (latest + i) capacity (proj1 Hc)) as Hn.
  rewrite !Next_mod by int_lia.
  split; [reflexivity|]. f_equal.
  rewrite Z.add_mod_idemp_l by lia. f_equal. lia.
Qed.

(** X3. On a valid state [Index] completes with a slot of the live
    window: a slot of the buffer fewer than [size] slots behind the
    head.  Slots outside the window are never read. *)
Theorem Index_in_window i head size capacity :
  in_int i -> 0 <= head < capacity -> 0 < size <= capacity ->
  capacity <= max_int ->
  exists p,
    Index i head size capacity = Done p /\
    0 <= p < capacity /\ (head - p) mod capacity < size.
Proof.
  intros Hi Hh Hs Hc.
  pose proof (Z.mod_pos_bound i size (proj1 Hs)) as Hm.
  exists ((head - i mod size) mod capacity).
  split; [apply Index_mod; assumption|].
  split; [apply Z.mod_pos_bound; lia|].
  rewrite Zminus_mod_idemp_r.
  replace (head - (head - i mod size)) with (i mod size) by lia.
  rewrite Z.mod_small by lia. lia.
Qed.

(** X4. On a valid state [Index] sends the offsets [0 .. size-1] to
    slots that are all different. *)
Theorem Index_injective i j head size capacity :
  0 <= head < capacity -> 0 < size <= capacity -> capacity <= max_int ->
  0 <= i < size -> 0 <= j < size ->
  Index i head size capacity = Index j head size capacity -> i = j.
Proof.
  intros Hh Hs Hc Hi Hj.
  rewrite !Index_mod by int_lia.
  rewrite !(Z.mod_small _ size) by lia.
  intros [= Heq].
  destruct (Z.lt_trichotomy i j) as [Hlt|[Heq'|Hgt]]; [|assumption|].
  - exfalso. apply (mod_shift_neq (head - j) (j - i) capacity); [lia|].
    replace (head - j + (j - i)) with (head - i) by lia. assumption.
  - exfalso. apply (mod_shift_neq (head - i) (i - j) capacity); [lia|].
    replace (head - i + (i - j)) with (head - j) by lia. congruence.
Qed.

(** ** The contract on rings of ints *)

Lemma small_len_ok (values : list iface) :
  (length values <= 10)%nat -> len values <= max_len.
Proof. intros H. unfold len, max_len. lia. Qed.

Lemma ring_123_reachable : reachable INil IInt ring_123.
Proof.
  apply reach_AddAll
    with (b := {| head := -1; size := 0; buf := repeat INil 5 |})
         (values := [IInt 1; IInt 2; IInt 3]) (e := None).
  - apply reach_New with (capacity := 5); [int_lia|reflexivity].
  - apply small_len_ok. simpl. lia.
  - reflexivity.
Qed.

Lemma ring_23_reachable : reachable INil IInt ring_23.
Proof.
  change ring_23 with (Remove ring_123 1).
  apply reach_Remove; [exact ring_123_reachable|int_lia].
Qed.

Lemma ring_full_reachable : reachable INil IInt ring_full.
Proof.
  apply reach_AddAll
    with (b := {| head := -1; size := 0; buf := repeat INil 3 |})
         (values := [IInt 1; IInt 2; IInt 3]) (e := None).
  - apply reach_New with (capacity := 3); [int_lia|reflexivity].
  - apply small_len_ok. simpl. lia.
  - reflexivity.
Qed.

Lemma ring_4_reachable : reachable INil IInt ring_4.
Proof.
  change ring_4
    with (Remove {| head := 3; size := 4;
                    buf := [IInt 1; IInt 2; IInt 3; IInt 4; INil; INil] |} 3).
  apply reach_Remove; [|int_lia].
  apply reach_AddAll
    with (b := {| head := -1; size := 0; buf := repeat INil 6 |})
         (values := [IInt 1; IInt 2; IInt 3; IInt 4]) (e := None).
  - apply reach_New with (capacity := 6); [int_lia|reflexivity].
  - apply small_len_ok. simpl. lia.
  - reflexivity.
Qed.

Lemma ring_wrapped_reachable : reachable INil IInt ring_wrapped.
Proof.
  apply reach_AddAll
    with (b := ring_4) (values := [IInt 5; IInt 6; IInt 7; IInt 8])
         (e := None).
  - exact ring_4_reachable.
  - apply small_len_ok. simpl. lia.
  - reflexivity.
Qed.

Lemma reachable_invariant_witness :
  reachable INil IInt ring_wrapped /\
  (0 <= size ring_wrapped <= len (buf ring_wrapped) /\
   (size ring_wrapped = 0 <-> head ring_wrapped = -1) /\
   (size ring_wrapped > 0 ->
    0 <= head ring_wrapped < len (buf ring_wrapped))).
Proof.
  split; [exact ring_wrapped_reachable|].
  apply (reachable_invariant INil IInt ring_wrapped).
  exact ring_wrapped_reachable.
Defined.

Lemma AddAll_all_or_nothing_witness :
  reachable INil IInt ring_full /\
  len [IInt 4] <= max_len /\
  size ring_full + len [IInt 4] > len (buf ring_full) /\
  AddAll ring_full [IInt 4] = Done (ring_full, Some FullError).
Proof.
  split; [exact ring_full_reachable|].
  split; [apply small_len_ok; simpl; lia|].
  split; [reflexivity|].
  apply (proj1 (AddAll_all_or_nothing INil IInt)).
  - exact ring_full_reachable.
  - apply small_len_ok. simpl. lia.
  - reflexivity.
Defined.

Lemma AddAll_always_progresses_witness :
  reachable INil IInt ring_4 /\
  size ring_4 + len [IInt 5; IInt 6; IInt 7; IInt 8] <= len (buf ring_4) /\
  exists b' spans,
    AddAll_spans ring_4 [IInt 5; IInt 6; IInt 7; IInt 8]
    = Done (b', None, spans) /\
    Forall (fun s : span => 1 <= snd s) spans /\
    AddAll ring_4 [IInt 5; IInt 6; IInt 7; IInt 8] = Done (b', None).
Proof.
  split; [exact ring_4_reachable|].
  split; [vm_compute; discriminate|].
  apply (AddAll_always_progresses INil IInt ring_4).
  - exact ring_4_reachable.
  - vm_compute. discriminate.
Defined.

Lemma AddAll_is_repeated_Add_witness :
  reachable INil IInt ring_4 /\
  size ring_4 + len [IInt 5; IInt 6; IInt 7; IInt 8] <= len (buf ring_4) /\
  exists b1 spans,
    AddAll_spans ring_4 [IInt 5; IInt 6; IInt 7; IInt 8]
    = Done (b1, None, spans) /\
    AddEach ring_4 [IInt 5; IInt 6; IInt 7; IInt 8] = Done (b1, None) /\
    (length spans <= 2)%nat.
Proof.
  split; [exact ring_4_reachable|].
  split; [vm_compute; discriminate|].
  destruct (AddAll_is_repeated_Add INil IInt ring_4
              [IInt 5; IInt 6; IInt 7; IInt 8] ring_4_reachable)
    as (b1 & b2 & spans & Hall & _ & Heach & _ & _ & _ & Heq & Htwo & _).
  - vm_compute. discriminate.
  - subst b2. exists b1, spans. auto.
Defined.

Lemma Add_contract_witness :
  reachable INil IInt ring_123 /\
  size ring_123 <> len (buf ring_123) /\
  exists b',
    Add ring_123 (IInt 4) = Done (b', None) /\
    size b' = size ring_123 + 1 /\
    Get INil IInt b' 0 = Done (IInt 4, None).
Proof.
  split; [exact ring_123_reachable|].
  split; [vm_compute; discriminate|].
  destruct (proj2 (proj1 (Add_contract INil IInt) ring_123 (IInt 4)
                     ring_123_reachable))
    as (b' & Hadd & _ & _ & _ & Hsize & _ & Hget & _).
  - vm_compute. discriminate.
  - exists b'. auto.
Defined.

Lemma Push_contract_witness :
  reachable INil IInt ring_full /\
  exists b',
    Push ring_full (IInt 4) = Done b' /\ size b' = size ring_full.
Proof.
  split; [exact ring_full_reachable|].
  destruct (Push_contract INil IInt ring_full (IInt 4) ring_full_reachable)
    as (b' & Hpush & Hsize & _).
  exists b'. auto.
Defined.

Lemma Remove_contract_witness :
  reachable INil IInt ring_123 /\ in_int 2 /\ 0 < 2 < size ring_123 /\
  size (Remove ring_123 2) = size ring_123 - 2 /\
  head (Remove ring_123 2) = head ring_123.
Proof.
  split; [exact ring_123_reachable|].
  split; [int_lia|]. split; [simpl; lia|].
  destruct (proj1 (Remove_contract INil IInt) ring_123 2 ring_123_reachable)
    as (_ & _ & _ & Hsome); [int_lia|].
  destruct Hsome as (Hsize & Hhead & _); [simpl; lia|].
  auto.
Defined.

Lemma SetCapacity_preserves_witness :
  reachable INil IInt ring_wrapped /\ in_int 10 /\ 10 <= max_alloc /\
  0 < size ring_wrapped /\
  exists b',
    SetCapacity INil ring_wrapped 10 = Done b' /\
    Capacity b' = Z.max 10 (Size ring_wrapped) /\
    (forall i, in_int i ->
       Get INil IInt b' i = Get INil IInt ring_wrapped i).
Proof.
  split; [exact ring_wrapped_reachable|].
  split; [int_lia|]. split; [int_lia|]. split; [simpl; lia|].
  destruct (SetCapacity_preserves INil IInt ring_wrapped 10
              ring_wrapped_reachable)
    as (b' & Hset & _ & Hcap & Hget & _).
  - int_lia.
  - int_lia.
  - left. simpl. lia.
  - exists b'. auto.
Defined.

Lemma Index_contract_witness :
  in_int (-51) /\ 0 <= 5 < 10 /\ 0 < 5 <= 10 /\ 10 <= max_int /\
  Index (-51) 5 5 10 = Done 1.
Proof.
  split; [int_lia|]. split; [lia|]. split; [lia|]. split; [int_lia|].
  apply (proj1 (proj2 Index_contract) (-51) 5 5 10); int_lia.
Defined.

(** The claim C2 as it was stated, at [ring_23] and [newCap = 5]: the
    capacity already is 5, the call changes nothing, and the head stays
    at 2 while [size - 1] is 1. *)
Lemma SetCapacity_keeps_head_counterexample :
  reachable INil IInt ring_23 /\
  SetCapacity INil ring_23 5 = Done ring_23 /\
  head ring_23 <> size ring_23 - 1.
Proof.
  split; [exact ring_23_reachable|]. split; [reflexivity|].
  vm_compute. discriminate.
Qed.

(** ** More of the contract on rings of ints *)

Lemma iface_eqb_eq (x y : iface) : iface_eqb x y = true <-> x = y.
Proof.
  destruct x as [|n], y as [|m]; simpl; split; intros H;
    try reflexivity; try discriminate.
  - apply Z.eqb_eq in H. congruence.
  - injection H as ->. apply Z.eqb_refl.
Qed.

Lemma ring_zero_reachable : reachable INil IInt ring_zero.
Proof. apply reach_New with (capacity := 0); [int_lia|reflexivity]. Qed.

Lemma ring_empty_reachable : reachable INil IInt ring_empty.
Proof. apply reach_New with (capacity := 5); [int_lia|reflexivity]. Qed.

Lemma Next_modulo_witness :
  0 < 5 <= max_int /\ in_int (-1 + -3) /\
  exists n, Next (-3) (-1) 5 = Done n /\ 0 <= n < 5.
Proof.
  split; [int_lia|]. split; [int_lia|].
  destruct (proj2 Next_modulo (-3) (-1) 5) as (n & Hn & Hr & _);
    try int_lia.
  exists n. auto.
Defined.

Lemma Next_Next_witness :
  0 < 6 <= max_len /\ -1 <= 3 < 6 /\ 0 <= 2 <= max_len /\
  0 <= 2 <= max_len /\
  exists n, Next 2 3 6 = Done n /\ Next 2 n 6 = Next (2 + 2) 3 6.
Proof.
  split; [int_lia|]. split; [lia|]. split; [int_lia|]. split; [int_lia|].
  apply (Next_Next 2 2 3 6); int_lia.
Defined.

Lemma Index_in_window_witness :
  in_int (-51) /\ 0 <= 2 < 10 /\ 0 < 5 <= 10 /\ 10 <= max_int /\
  exists p,
    Index (-51) 2 5 10 = Done p /\ 0 <= p < 10 /\ (2 - p) mod 10 < 5.
Proof.
  split; [int_lia|]. split; [lia|]. split; [lia|]. split; [int_lia|].
  apply (Index_in_window (-51) 2 5 10); int_lia.
Defined.

Lemma Index_injective_witness :
  0 <= 2 < 10 /\ 0 < 5 <= 10 /\ 10 <= max_int /\
  0 <= 3 < 5 /\ 0 <= 3 < 5 /\
  Index 3 2 5 10 = Index 3 2 5 10 /\ 3 = 3.
Proof.
  split; [lia|]. split; [lia|]. split; [int_lia|].
  split; [lia|]. split; [lia|]. split; [reflexivity|].
  apply (Index_injective 3 3 2 5 10); try int_lia. reflexivity.
Defined.

Lemma Get_completes_witness :
  reachable INil IInt ring_wrapped /\ in_int (-1) /\
  exists v e, Get INil IInt ring_wrapped (-1) = Done (v, e).
Proof.
  split; [exact ring_wrapped_reachable|]. split; [int_lia|].
  destruct (Get_completes INil IInt ring_wrapped (-1)
              ring_wrapped_reachable) as (v & e & Hget & _); [int_lia|].
  exists v, e. exact Hget.
Defined.

Lemma Get_periodic_witness :
  reachable INil IInt ring_wrapped /\ in_int (-1) /\ in_int 4 /\
  size ring_wrapped <> 0 /\
  (-1) mod size ring_wrapped = 4 mod size ring_wrapped /\
  Get INil IInt ring_wrapped (-1) = Get INil IInt ring_wrapped 4.
Proof.
  split; [exact ring_wrapped_reachable|]. split; [int_lia|].
  split; [int_lia|]. split; [vm_compute; discriminate|].
  split; [reflexivity|].
  apply (Get_periodic INil IInt ring_wrapped (-1) 4);
    try int_lia; try reflexivity.
  - exact ring_wrapped_reachable.
  - vm_compute. discriminate.
Defined.

Lemma AddAll_then_Get_witness :
  reachable INil IInt ring_4 /\
  size ring_4 + len [IInt 5; IInt 6; IInt 7; IInt 8] <= len (buf ring_4) /\
  exists b',
    AddAll ring_4 [IInt 5; IInt 6; IInt 7; IInt 8] = Done (b', None) /\
    Size b' = Size ring_4 + len [IInt 5; IInt 6; IInt 7; IInt 8].
Proof.
  split; [exact ring_4_reachable|].
  split; [vm_compute; discriminate|].
  destruct (AddAll_then_Get INil IInt ring_4
              [IInt 5; IInt 6; IInt 7; IInt 8] ring_4_reachable)
    as (b' & Hall & Hsize & _).
  - vm_compute. discriminate.
  - exists b'. auto.
Defined.

Lemma capacity_kept_witness :
  reachable INil IInt ring_123 /\
  forall count, Capacity (Remove ring_123 count) = Capacity ring_123.
Proof.
  split; [exact ring_123_reachable|].
  apply (capacity_kept INil IInt ring_123 ring_123_reachable).
Defined.

Lemma Push_is_Remove_then_Add_witness :
  reachable INil IInt ring_4 /\ size ring_4 <> 0 /\
  exists b1 b2,
    Push ring_4 (IInt 9) = Done b1 /\
    Add (Remove ring_4 1) (IInt 9) = Done (b2, None) /\
    Size b1 = Size b2.
Proof.
  split; [exact ring_4_reachable|]. split; [vm_compute; discriminate|].
  destruct (Push_is_Remove_then_Add INil IInt ring_4 (IInt 9)
              ring_4_reachable)
    as (b1 & b2 & Hpush & Hadd & Hsize & _).
  - vm_compute. discriminate.
  - exists b1, b2. auto.
Defined.

Lemma Remove_Remove_witness :
  reachable INil IInt ring_wrapped /\ 0 <= 1 /\ 0 <= 2 /\
  1 + 2 <= max_int /\
  Remove (Remove ring_wrapped 1) 2 = Remove ring_wrapped (1 + 2).
Proof.
  split; [exact ring_wrapped_reachable|]. split; [lia|]. split; [lia|].
  split; [int_lia|].
  apply (Remove_Remove INil IInt ring_wrapped 1 2); try int_lia.
  exact ring_wrapped_reachable.
Defined.

Lemma zero_capacity_ring_witness :
  reachable INil IInt ring_zero /\ Capacity ring_zero = 0 /\
  (forall v, Add ring_zero v = Done (ring_zero, Some FullError)) /\
  SetCapacity INil ring_zero 1 = Panic SliceBounds.
Proof.
  split; [exact ring_zero_reachable|]. split; [reflexivity|].
  destruct (zero_capacity_ring INil IInt ring_zero ring_zero_reachable
              eq_refl)
    as (_ & Hadd & _ & _ & _ & _ & _ & _ & Hset & _).
  split; [exact Hadd|]. apply Hset; int_lia.
Defined.

Lemma SetCapacity_idempotent_witness :
  reachable INil IInt ring_wrapped /\
  SetCapacity INil ring_wrapped (Capacity ring_wrapped) = Done ring_wrapped.
Proof.
  split; [exact ring_wrapped_reachable|].
  exact (proj1 (SetCapacity_idempotent INil IInt ring_wrapped
                  ring_wrapped_reachable)).
Defined.

Lemma SetCapacity_on_empty_witness :
  reachable INil IInt ring_empty /\ size ring_empty = 0 /\
  Z.max 10 0 <> Capacity ring_empty /\ 10 <= max_alloc /\
  SetCapacity INil ring_empty 10 = Panic SliceBounds.
Proof.
  split; [exact ring_empty_reachable|]. split; [reflexivity|].
  split; [vm_compute; discriminate|]. split; [int_lia|].
  apply (proj1 (proj2 (SetCapacity_on_empty INil IInt ring_empty 10
                         ring_empty_reachable eq_refl))).
  - vm_compute. discriminate.
  - int_lia.
Defined.

Lemma SetCapacity_to_fit_witness :
  reachable INil IInt ring_wrapped /\ size ring_wrapped <> 0 /\
  in_int 0 /\ 0 <= size ring_wrapped /\
  exists b',
    SetCapacity INil ring_wrapped 0 = Done b' /\
    Capacity b' = Size ring_wrapped.
Proof.
  split; [exact ring_wrapped_reachable|].
  split; [vm_compute; discriminate|]. split; [int_lia|].
  split; [vm_compute; discriminate|].
  destruct (SetCapacity_to_fit INil IInt ring_wrapped 0
              ring_wrapped_reachable) as (b' & Hset & Hcap & _).
  - vm_compute. discriminate.
  - int_lia.
  - vm_compute. discriminate.
  - exists b'. auto.
Defined.

Lemma equals_same_content_witness :
  (forall x y, iface_eqb x y = true <-> x = y) /\
  reachable INil IInt ring_123 /\ reachable INil IInt ring_full /\
  exists r, equals INil IInt iface_eqb ring_123 ring_full = Done r.
Proof.
  split; [exact iface_eqb_eq|]. split; [exact ring_123_reachable|].
  split; [exact ring_full_reachable|].
  destruct (equals_same_content INil IInt iface_eqb iface_eqb_eq
              ring_123 ring_full ring_123_reachable ring_full_reachable)
    as (r & Heq & _).
  exists r. exact Heq.
Defined.

